(** * Greedy assignment of participants to events

    A shallow embedding of [assign_events.py]: the domain model
    ([Participant], [Event]), the ranking key, the greedy fill loop of
    [assign_events] and the predicate filter [filter_participants],
    followed by the properties the specification states about them.

    Conventions of the embedding.
    - A Python [int] is a [Z]; a Python [float] is a [spec_float] of the
      Standard Library (IEEE-754 values with their comparison, NaN
      included); a [str] is a [string]; [Optional[T]] is [option T]; a
      [Set[str]] is a [gset string]; a [defaultdict(int)] keyed by strings
      is a [gmap string Z] read with default [0].
    - Objects are identified by their position in the two input lists, as
      [read_participants] and [read_events] build one object per row: a
      participant's [assignments] holds event positions and an event's
      [assignments] holds participant positions, and membership in these
      lists is membership of the object.  The two lists together form the
      shared store every loop iteration reads and mutates.
    - [candidates[0]] can raise [IndexError] in Python, so the loops run in
      a small error monad.
    - [list.sort] is a built-in: the engine takes it as a parameter, the
      shipped engine fixes a reference stable sort, and the contract of
      [list.sort] is stated once ([sort_contract]).
    - [strftime("%A")] gives the English day names; [str.lower] and
      [str.upper] act on ASCII letters. *)

From Stdlib Require Import ZArith List String Ascii Bool Lia.
From Stdlib Require Import Floats.SpecFloat.
From Stdlib Require Import Sorting.Permutation Sorting.Sorted.
From stdpp Require Import gmap strings list.

Local Open Scope Z_scope.

(** ** Calendar dates

    [datetime.date] of the Python standard library: a proleptic Gregorian
    date, its ordinal ([date.toordinal], day 1 is 0001-01-01), its weekday
    ([date.weekday], Monday is 0) and the English day name produced by
    [strftime("%A")]. *)

Module Date.

Record t := mk { year : Z; month : Z; day : Z }.

Definition is_leap (y : Z) : bool :=
  (y mod 4 =? 0) && (negb (y mod 100 =? 0) || (y mod 400 =? 0)).

Definition days_before_year (y : Z) : Z :=
  let p := y - 1 in p * 365 + p / 4 - p / 100 + p / 400.

Definition days_in_month_table : list Z :=
  [31; 28; 31; 30; 31; 30; 31; 31; 30; 31; 30; 31].

Definition days_before_month (y m : Z) : Z :=
  fold_right Z.add 0 (firstn (Z.to_nat (m - 1)) days_in_month_table)
  + (if (2 <? m) && is_leap y then 1 else 0).

Definition toordinal (d : t) : Z :=
  days_before_year (year d) + days_before_month (year d) (month d) + day d.

Definition weekday (d : t) : Z := (toordinal d + 6) mod 7.

Definition day_name_table : list string :=
  ["Monday"; "Tuesday"; "Wednesday"; "Thursday"; "Friday"; "Saturday";
   "Sunday"]%string.

(** [d.strftime("%A")] *)
Definition strftime_A (d : t) : string :=
  nth (Z.to_nat (weekday d)) day_name_table ""%string.

(** [(d1 - d2).days] *)
Definition sub_days (d1 d2 : t) : Z := toordinal d1 - toordinal d2.

End Date.

(** ** Strings: [str.lower], [str.upper] on ASCII letters, truthiness *)

Definition ascii_lower (c : ascii) : ascii :=
  let n := nat_of_ascii c in
  if Nat.leb 65 n && Nat.leb n 90 then ascii_of_nat (n + 32) else c.

Definition ascii_upper (c : ascii) : ascii :=
  let n := nat_of_ascii c in
  if Nat.leb 97 n && Nat.leb n 122 then ascii_of_nat (n - 32) else c.

Fixpoint str_map (f : ascii -> ascii) (s : string) : string :=
  match s with
  | EmptyString => EmptyString
  | String c r => String (f c) (str_map f r)
  end.

Definition lower : string -> string := str_map ascii_lower.
Definition upper : string -> string := str_map ascii_upper.

(** [if s:] for a [str]: the empty string is falsy. *)
Definition str_truthy (s : string) : bool := negb (String.eqb s "").

(** [o or ""] for an [Optional[str]]. *)
Definition or_empty (o : option string) : string :=
  match o with
  | Some s => if str_truthy s then s else ""%string
  | None => ""%string
  end.

(** ** Floats: Python's comparison operators on [float] *)

Definition float_eq (x y : spec_float) : bool := SFeqb x y.
Definition float_lt (x y : spec_float) : bool := SFltb x y.
Definition float_gt (x y : spec_float) : bool :=
  match SFcompare x y with
  | Some Gt => true
  | _ => false
  end.

(** The literal [0.0]. *)
Definition float_zero : spec_float := S754_zero false.

Definition is_nan (x : spec_float) : bool :=
  match x with
  | S754_nan => true
  | _ => false
  end.

(** ** Domain model *)

Module Participant.
Record t := mk {
  name : string;
  preferred_school : option bool;
  preferred_days : gset string;
  distance : option spec_float;
  country : option string;
  gender : option string;
  assignments : list nat   (* positions of events, in commit order *)
}.
End Participant.

Module Event.
Record t := mk {
  name : string;
  date : Date.t;
  location : string;
  capacity : Z;
  school_event : option bool;
  assignments : list nat   (* positions of participants, in commit order *)
}.
End Event.

(** ** Fairness counters: [defaultdict(int)] *)

Definition counts_get (c : gmap string Z) (k : string) : Z :=
  default 0 (c !! k).

(** [c[k] += 1] *)
Definition counts_incr (c : gmap string Z) (k : string) : gmap string Z :=
  <[k := counts_get c k + 1]> c.

(** [c.get(k, 0)] where [k] is an [Optional[str]]; [None] is never a key. *)
Definition counts_get_opt (c : gmap string Z) (k : option string) : Z :=
  match k with
  | Some s => counts_get c s
  | None => 0
  end.

(** [if k: c[k] += 1] *)
Definition counts_incr_if (c : gmap string Z) (k : option string)
  : gmap string Z :=
  match k with
  | Some s => if str_truthy s then counts_incr c s else c
  | None => c
  end.

(** ** Ranking *)

Definition days_between (d1 d2 : Date.t) : Z := Z.abs (Date.sub_days d1 d2).

Definition gender_diff (gender_counts : gmap string Z) (gender : option string)
  : Z :=
  let counts := gender_counts in
  let counts := counts_incr_if counts gender in
  Z.abs (counts_get counts "M" - counts_get counts "F").

(** The sort key: a 5-tuple [(int, int, float, int, int)]. *)
Definition key : Type := (Z * Z * spec_float * Z * Z)%type.

Definition candidate_key (participant : Participant.t) (event : Event.t)
    (country_counts gender_counts : gmap string Z) : key :=
  let school_score :=
    match Participant.preferred_school participant, Event.school_event event with
    | Some ps, Some es => if negb (Bool.eqb ps es) then 1 else 0
    | _, _ => 0
    end in
  let day := lower (Date.strftime_A (Event.date event)) in
  let day_score :=
    if bool_decide (Participant.preferred_days participant ≠ ∅)
       && bool_decide (day ∉ Participant.preferred_days participant)
    then 1 else 0 in
  let distance_score :=
    match Participant.distance participant with
    | Some d => d
    | None => float_zero
    end in
  let country_score :=
    counts_get_opt country_counts (Participant.country participant) in
  let gender_score := gender_diff gender_counts (Participant.gender participant) in
  (school_score, day_score, distance_score, country_score, gender_score).

(** Python's [<] on two such tuples: the first position where the items
    are not [==] decides with [<]; equal tuples are not less. *)
Definition key_lt (a b : key) : bool :=
  let '(s1, d1, x1, c1, g1) := a in
  let '(s2, d2, x2, c2, g2) := b in
  if negb (s1 =? s2) then s1 <? s2
  else if negb (d1 =? d2) then d1 <? d2
  else if negb (float_eq x1 x2) then float_lt x1 x2
  else if negb (c1 =? c2) then c1 <? c2
  else if negb (g1 =? g2) then g1 <? g2
  else false.

(** ** Errors *)

Inductive exn : Set := IndexError.

Inductive result (A : Type) : Type :=
| Ok (a : A)
| Raise (e : exn).
Arguments Ok {A} a.
Arguments Raise {A} e.

Definition bind {A B : Type} (r : result A) (k : A -> result B) : result B :=
  match r with
  | Ok a => k a
  | Raise e => Raise e
  end.

#[export] Instance result_bind : MBind result := fun A B k r => bind r k.
#[export] Instance result_ret : MRet result := fun A a => Ok a.

(** ** The shared store *)

Record store := mkstore {
  participants : list Participant.t;
  events : list Event.t
}.

(** [enumerate(l)]: every object together with its position. *)
Definition enumerate {A : Type} (l : list A) : list (nat * A) := imap pair l.

(** [p.assignments.append(event)] *)
Definition participant_append (ei : nat) (p : Participant.t) : Participant.t :=
  Participant.mk (Participant.name p) (Participant.preferred_school p)
    (Participant.preferred_days p) (Participant.distance p)
    (Participant.country p) (Participant.gender p)
    (Participant.assignments p ++ [ei]).

(** [event.assignments.append(p)] *)
Definition event_append (pi : nat) (e : Event.t) : Event.t :=
  Event.mk (Event.name e) (Event.date e) (Event.location e) (Event.capacity e)
    (Event.school_event e) (Event.assignments e ++ [pi]).

(** Both appends of one commit, lines 143-144. *)
Definition commit (st : store) (ei chosen : nat) : store :=
  mkstore (alter (participant_append ei) chosen (participants st))
          (alter (event_append chosen) ei (events st)).

(** ** The assignment engine *)

(** [days_between(event.date, e.date) >= 30], [e] read through the store.
    A reference always points into the events list; the [None] branch is
    there for totality only. *)
Definition spaced (st : store) (event : Event.t) (e : nat) : bool :=
  match events st !! e with
  | Some other => 30 <=? days_between (Event.date event) (Event.date other)
  | None => false
  end.

(** The condition of the comprehension on lines 137-138. *)
Definition eligible (st : store) (event : Event.t) (p : Participant.t) : bool :=
  Nat.ltb (length (Participant.assignments p)) 2
  && forallb (spaced st event) (Participant.assignments p).

(** Lines 136-138: the eligible participants, in input order. *)
Definition candidates (st : store) (event : Event.t)
  : list (nat * Participant.t) :=
  List.filter (fun ip => eligible st event (snd ip))
              (enumerate (participants st)).

(** What one pass over the slots of an event carries along. *)
Record loop_state := mkloop {
  ls_store : store;
  country_counts : gmap string Z;
  gender_counts : gmap string Z
}.

(** The key function handed to [sort]. *)
Definition slot_key (event : Event.t) (cc gc : gmap string Z)
    (ip : nat * Participant.t) : key :=
  candidate_key (snd ip) event cc gc.

Section Engine.

(** [list.sort(key=f)], a built-in: the engine is written against it
    and instantiated below with a reference stable sort. *)
Variable list_sort : forall A : Type, (A -> key) -> list A -> list A.

(** One iteration of the body of the inner loop, lines 136-148.
    [None] stands for [break].  The event is passed as found in the input
    list; only its immutable fields are read from it. *)
Definition slot (ei : nat) (event : Event.t) (s : loop_state)
  : result (option loop_state) :=
  let st := ls_store s in
  let cc := country_counts s in
  let gc := gender_counts s in
  let cands := candidates st event in
  match cands with
  | [] => Ok None
  | _ :: _ =>
    match list_sort _ (slot_key event cc gc) cands with
    | [] => Raise IndexError
    | (ci, chosen) :: _ =>
      Ok (Some (mkloop (commit st ei ci)
                       (counts_incr_if cc (Participant.country chosen))
                       (counts_incr_if gc (Participant.gender chosen))))
    end
  end.

(** [for _ in range(n): ...] *)
Fixpoint fill_slots (n : nat) (ei : nat) (event : Event.t) (s : loop_state)
  : result loop_state :=
  match n with
  | O => Ok s
  | S n' =>
    r ← slot ei event s;
    match r with
    | None => Ok s
    | Some s' => fill_slots n' ei event s'
    end
  end.

(** The body of the outer loop for one event: fresh counters, then
    [range(event.capacity)] slots. *)
Definition fill_event (ei : nat) (event : Event.t) (st : store)
  : result store :=
  s ← fill_slots (Z.to_nat (Event.capacity event)) ei event (mkloop st ∅ ∅);
  Ok (ls_store s).

(** [for event in events: ...] *)
Fixpoint assign_loop (evs : list (nat * Event.t)) (st : store)
  : result store :=
  match evs with
  | [] => Ok st
  | (ei, event) :: rest =>
    st' ← fill_event ei event st;
    assign_loop rest st'
  end.

Definition assign_events_with (st : store) : result store :=
  assign_loop (enumerate (events st)) st.

(** *** Commit points

    Ghost instrumentation of the two loops: the loop states, and the
    stores, reached right after each commit, in the order the run
    reaches them. *)

Fixpoint fill_trace (n : nat) (ei : nat) (event : Event.t) (s : loop_state)
  : list loop_state :=
  match n with
  | O => []
  | S n' =>
    match slot ei event s with
    | Ok (Some s') => s' :: fill_trace n' ei event s'
    | _ => []
    end
  end.

Fixpoint assign_trace (evs : list (nat * Event.t)) (st : store)
  : list store :=
  match evs with
  | [] => []
  | (ei, event) :: rest =>
    (ls_store <$> fill_trace (Z.to_nat (Event.capacity event)) ei event
                    (mkloop st ∅ ∅))
    ++ match fill_event ei event st with
       | Ok st' => assign_trace rest st'
       | Raise _ => []
       end
  end.

Definition commit_points (st : store) : list store :=
  assign_trace (enumerate (events st)) st.

End Engine.

(** ** The reference stable sort

    [list.sort] compares keys with [<] only and keeps the input order of
    items none of which is less than the other. *)

Fixpoint insert_by {A : Type} (f : A -> key) (x : A) (l : list A) : list A :=
  match l with
  | [] => [x]
  | y :: r => if key_lt (f y) (f x) then y :: insert_by f x r else x :: l
  end.

Fixpoint sort_by {A : Type} (f : A -> key) (l : list A) : list A :=
  match l with
  | [] => []
  | x :: r => insert_by f x (sort_by f r)
  end.

Definition py_sort : forall A : Type, (A -> key) -> list A -> list A :=
  fun A => @sort_by A.

Definition assign_events : store -> result store := assign_events_with py_sort.

(** ** [filter_participants] *)

(** The five [continue] guards of lines 188-197, in order. *)
Definition excluded_by_gender (gender : option string) (p : Participant.t) : bool :=
  match gender with
  | Some g =>
    str_truthy g
    && negb (String.eqb (upper (or_empty (Participant.gender p))) (upper g))
  | None => false
  end.

Definition excluded_by_country (country : option string) (p : Participant.t) : bool :=
  match country with
  | Some c =>
    str_truthy c
    && negb (String.eqb (lower (or_empty (Participant.country p))) (lower c))
  | None => false
  end.

(** [day] is the already lowercased argument (line 185). *)
Definition excluded_by_day (day : option string) (p : Participant.t) : bool :=
  match day with
  | Some d =>
    str_truthy d
    && bool_decide (Participant.preferred_days p ≠ ∅)
    && bool_decide (d ∉ Participant.preferred_days p)
  | None => false
  end.

Definition excluded_by_school (school : option bool) (p : Participant.t) : bool :=
  match school, Participant.preferred_school p with
  | Some s, Some ps => negb (Bool.eqb ps s)
  | _, _ => false
  end.

Definition excluded_by_distance (max_distance : option spec_float)
    (p : Participant.t) : bool :=
  match max_distance, Participant.distance p with
  | Some m, Some d => float_gt d m
  | _, _ => false
  end.

(** Line 185: [day = day.lower() if day else None]. *)
Definition normalise_day (day : option string) : option string :=
  match day with
  | Some d => if str_truthy d then Some (lower d) else None
  | None => None
  end.

(** The loop of lines 187-198 with its accumulator [result]. *)
Fixpoint filter_loop (gender country day : option string) (school : option bool)
    (max_distance : option spec_float)
    (ps : list Participant.t) (result : list Participant.t)
  : list Participant.t :=
  match ps with
  | [] => result
  | p :: rest =>
    let continue := filter_loop gender country day school max_distance rest in
    if excluded_by_gender gender p then continue result
    else if excluded_by_country country p then continue result
    else if excluded_by_day day p then continue result
    else if excluded_by_school school p then continue result
    else if excluded_by_distance max_distance p then continue result
    else continue (result ++ [p])
  end.

Definition filter_participants (ps : list Participant.t)
    (gender country day : option string) (school : option bool)
    (max_distance : option spec_float) : list Participant.t :=
  let day := normalise_day day in
  filter_loop gender country day school max_distance ps [].

(** ** The ranking key in the words of the specification *)

Definition weekday_names : list string :=
  ["monday"; "tuesday"; "wednesday"; "thursday"; "friday"; "saturday";
   "sunday"]%string.

(** The event's weekday name, lowercased. *)
Definition weekday_name (d : Date.t) : string :=
  nth (Z.to_nat (Date.weekday d)) weekday_names ""%string.

(** 1 iff both preferences are set and differ. *)
Definition schoolMismatch (p : Participant.t) (e : Event.t) : Z :=
  match Participant.preferred_school p, Event.school_event e with
  | Some a, Some b => if decide (a = b) then 0 else 1
  | _, _ => 0
  end.

(** 1 iff the preferred days are non-empty and the weekday is not among
    them. *)
Definition dayMismatch (p : Participant.t) (e : Event.t) : Z :=
  if decide (Participant.preferred_days p ≠ ∅
             ∧ weekday_name (Event.date e) ∉ Participant.preferred_days p)
  then 1 else 0.

(** The participant's distance, [0.0] when unset. *)
Definition distanceScore (p : Participant.t) : spec_float :=
  default float_zero (Participant.distance p).

(** The current count of the participant's country: 0 without a country
    and 0 for a country not seen yet. *)
Definition countryScore (cc : gmap string Z) (p : Participant.t) : Z :=
  match Participant.country p with
  | Some c =>
    match cc !! c with
    | Some n => n
    | None => 0
    end
  | None => 0
  end.

(** The count of bucket [g] once a candidate of gender [cand] is added. *)
Definition count_after_adding (gc : gmap string Z) (cand : option string)
    (g : string) : Z :=
  counts_get gc g + (if decide (cand = Some g) then 1 else 0).

(** [|M - F|] as it would be with this one candidate added. *)
Definition genderScore (gc : gmap string Z) (p : Participant.t) : Z :=
  Z.abs (count_after_adding gc (Participant.gender p) "M"
         - count_after_adding gc (Participant.gender p) "F").

Definition ranking_key (p : Participant.t) (e : Event.t)
    (cc gc : gmap string Z) : key :=
  (schoolMismatch p e, dayMismatch p e, distanceScore p,
   countryScore cc p, genderScore gc p).

(** ** Vocabulary of the properties *)

(** The first item of [l] whose key no other item undercuts: the item a
    stable ascending sort puts first. *)
Fixpoint first_min {A : Type} (f : A -> key) (l : list A) : option A :=
  match l with
  | [] => None
  | x :: r =>
    match first_min f r with
    | Some m => if key_lt (f m) (f x) then Some m else Some x
    | None => Some x
    end
  end.

(** The float of a key is a number. *)
Definition key_ordered (k : key) : bool :=
  let '(_, _, x, _, _) := k in negb (is_nan x).

Definition participant_ordered (p : Participant.t) : bool :=
  match Participant.distance p with
  | Some d => negb (is_nan d)
  | None => true
  end.

(** No participant of the store has a NaN distance. *)
Definition store_ordered (st : store) : bool :=
  forallb participant_ordered (participants st).

(** Neither key is less than the other. *)
Definition key_equiv (a b : key) : bool :=
  negb (key_lt a b) && negb (key_lt b a).

(** An item whose key is comparable, and two items in ascending order of
    their keys. *)
Definition item_ordered {A : Type} (f : A -> key) (x : A) : Prop :=
  key_ordered (f x) = true.

Definition ascending {A : Type} (f : A -> key) (a b : A) : Prop :=
  key_lt (f b) (f a) = false.

(** What [list.sort] promises: always a permutation of its input; when [<]
    orders the keys (no NaN among them) the result is ascending and items
    with equivalent keys keep their input order. *)
Definition sort_contract
    (srt : forall A : Type, (A -> key) -> list A -> list A) : Prop :=
  forall (A : Type) (f : A -> key) (l : list A),
    Permutation l (srt A f l)
    /\ (Forall (item_ordered f) l ->
        StronglySorted (ascending f) (srt A f l)
        /\ forall k : key,
             key_ordered k = true ->
             List.filter (fun y => key_equiv k (f y)) (srt A f l)
             = List.filter (fun y => key_equiv k (f y)) l).

(** The store as built by [read_participants] and [read_events]: nobody is
    assigned yet. *)
Definition fresh (st : store) : bool :=
  forallb (fun p => match Participant.assignments p with [] => true | _ => false end)
          (participants st)
  && forallb (fun e => match Event.assignments e with [] => true | _ => false end)
             (events st).

(** [e.assignments] and [p.assignments] read through the store. *)
Definition assigned (st : store) (ei : nat) : list nat :=
  match events st !! ei with
  | Some e => Event.assignments e
  | None => []
  end.

Definition assignments_of (st : store) (pi : nat) : list nat :=
  match participants st !! pi with
  | Some p => Participant.assignments p
  | None => []
  end.

(** The fields of an event and of a participant no loop writes. *)
Definition event_static (e : Event.t)
  : string * Date.t * string * Z * option bool :=
  (Event.name e, Event.date e, Event.location e, Event.capacity e,
   Event.school_event e).

Definition participant_static (p : Participant.t)
  : string * option bool * gset string * option spec_float * option string
    * option string :=
  (Participant.name p, Participant.preferred_school p,
   Participant.preferred_days p, Participant.distance p,
   Participant.country p, Participant.gender p).

(** The place of a float on the number line, as three integers compared
    lexicographically; it mirrors the case analysis of [SFcompare]. *)
Definition float_rank (x : spec_float) : Z * Z * Z :=
  match x with
  | S754_infinity true => (-2, 0, 0)
  | S754_finite true m e => (-1, - e, - Z.pos m)
  | S754_zero _ => (0, 0, 0)
  | S754_nan => (0, 0, 0)
  | S754_finite false m e => (1, e, Z.pos m)
  | S754_infinity false => (2, 0, 0)
  end.

Definition key_rank (k : key) : list Z :=
  let '(s, d, x, c, g) := k in
  let '(r1, r2, r3) := float_rank x in
  [s; d; r1; r2; r3; c; g].

Fixpoint lex_lt (a b : list Z) : Prop :=
  match a, b with
  | x :: a', y :: b' => x < y \/ (x = y /\ lex_lt a' b')
  | _, _ => False
  end.

(** The event handed to the inner loop is the one at position [ei] of
    the store, up to its [assignments]. *)
Definition linked (st : store) (ei : nat) (event : Event.t) : Prop :=
  event_static <$> (events st !! ei) = Some (event_static event).

(** Two stores that differ in [assignments] fields only. *)
Definition same_static (st st' : store) : Prop :=
  event_static <$> events st = event_static <$> events st'
  /\ participant_static <$> participants st
     = participant_static <$> participants st'.

(** The relationship invariants of the data model, on the whole store. *)
Record consistent (st : store) : Prop := mkconsistent {
  c_forward : forall i e, e ∈ assignments_of st i -> i ∈ assigned st e;
  c_backward : forall i e, i ∈ assigned st e -> e ∈ assignments_of st i;
  c_cap : forall i, (length (assignments_of st i) <= 2)%nat;
  c_spacing : forall i j k e1 e2 ev1 ev2,
    j <> k ->
    assignments_of st i !! j = Some e1 ->
    assignments_of st i !! k = Some e2 ->
    events st !! e1 = Some ev1 ->
    events st !! e2 = Some ev2 ->
    30 <= days_between (Event.date ev1) (Event.date ev2);
  c_nodup : forall e, NoDup (assigned st e)
}.

(** ** A small roster, used to exercise the statements below *)

(** [5.0] and [50.0] as binary64 values. *)
Definition float_5 : spec_float := S754_finite false 5629499534213120 (-50).
Definition float_50 : spec_float := S754_finite false 7036874417766400 (-47).

Definition ana : Participant.t :=
  Participant.mk "Ana" (Some true) {["monday"%string]} (Some float_5)
    (Some "PT"%string) (Some "F"%string) [].
Definition ben : Participant.t :=
  Participant.mk "Ben" None ∅ (Some float_50)
    (Some "US"%string) (Some "M"%string) [].
Definition cy : Participant.t :=
  Participant.mk "Cy" (Some false) {["tuesday"%string]} None None None [].

Definition opening : Event.t :=
  Event.mk "Opening" (Date.mk 2024 1 15) "Hall" 2 (Some true) [].
Definition workshop : Event.t :=
  Event.mk "Workshop" (Date.mk 2024 1 25) "Lab" 5 None [].
Definition closing : Event.t :=
  Event.mk "Closing" (Date.mk 2024 2 19) "Hall" 5 (Some false) [].

Definition sample_participants : list Participant.t := [ana; ben; cy].
Definition sample_events : list Event.t := [opening; workshop; closing].

Definition sample_store : store := mkstore sample_participants sample_events.

(** The store the run leaves behind on the sample roster. *)
Definition sample_result : store :=
  Eval vm_compute in
    match assign_events sample_store with
    | Ok st => st
    | Raise _ => sample_store
    end.

(** The sample store when the turn of the third event starts. *)
Definition sample_before_closing : store :=
  Eval vm_compute in
    match assign_loop py_sort [(0%nat, opening); (1%nat, workshop)] sample_store with
    | Ok st => st
    | Raise _ => sample_store
    end.

(** ** A second stable sort

    Insertion from the left, each item going to the right of the items
    not greater than it: the way CPython sorts a short list. *)

Fixpoint insert_right {A : Type} (f : A -> key) (x : A) (l : list A) : list A :=
  match l with
  | [] => [x]
  | y :: r => if key_lt (f x) (f y) then x :: l else y :: insert_right f x r
  end.

Definition sort_left {A : Type} (f : A -> key) (l : list A) : list A :=
  fold_left (fun acc x => insert_right f x acc) l [].

Definition bisect_sort : forall A : Type, (A -> key) -> list A -> list A :=
  fun A => @sort_left A.

(** A participant passes [filter_participants] when no guard excludes
    it. *)
Definition retained (gender country day : option string) (school : option bool)
    (max_distance : option spec_float) (p : Participant.t) : bool :=
  negb (excluded_by_gender gender p
        || excluded_by_country country p
        || excluded_by_day day p
        || excluded_by_school school p
        || excluded_by_distance max_distance p).

(** How many of [members] carry the value [v] of an attribute. *)
Definition tally (attr : Participant.t -> option string) (st : store)
    (members : list nat) (v : string) : Z :=
  Z.of_nat (length (List.filter
    (fun i => match participants st !! i with
              | Some p => bool_decide (attr p = Some v)
              | None => false
              end) members)).

(** The two counters of a loop state are the tallies of the event's list:
    each non-empty value maps to the number of members carrying it, and
    the empty string is never counted. *)
Definition counters_tally (ei : nat) (s : loop_state) : Prop :=
  forall v : string,
    counts_get (country_counts s) v
    = (if str_truthy v
       then tally Participant.country (ls_store s) (assigned (ls_store s) ei) v
       else 0)
    /\ counts_get (gender_counts s) v
       = (if str_truthy v
          then tally Participant.gender (ls_store s) (assigned (ls_store s) ei) v
          else 0).

(** ** Rosters for the scenarios of the specification *)

Definition float_1 : spec_float := S754_finite false 4503599627370496 (-52).
Definition float_2 : spec_float := S754_finite false 4503599627370496 (-51).

(** Scenario A: the participant with a day preference comes first in the
    input, the one without comes second. *)
Definition scenario_a : store :=
  mkstore
    [ Participant.mk "P2" None {["tuesday"%string]} None None None [];
      Participant.mk "P1" None ∅ None None None [] ]
    [ Event.mk "E" (Date.mk 2024 1 15) "Hall" 2 None [] ].

(** Scenario E: two men and a woman; the second man and the woman differ
    in gender only. *)
Definition scenario_e : store :=
  mkstore
    [ Participant.mk "M1" None ∅ (Some float_1) None (Some "M"%string) [];
      Participant.mk "M2" None ∅ (Some float_2) None (Some "M"%string) [];
      Participant.mk "F1" None ∅ (Some float_2) None (Some "F"%string) [] ]
    [ Event.mk "E" (Date.mk 2024 1 15) "Hall" 2 None [] ].

(** Two participants with the same attributes and one slot. *)
Definition scenario_tie : store :=
  mkstore
    [ Participant.mk "T" None ∅ None None None [];
      Participant.mk "T" None ∅ None None None [] ]
    [ Event.mk "E" (Date.mk 2024 1 15) "Hall" 1 None [] ].

(** The lists of a store, participants first. *)
Definition lists_of (st : store) : list (list nat) * list (list nat) :=
  (Participant.assignments <$> participants st,
   Event.assignments <$> events st).

Definition run_lists (st : store) : option (list (list nat) * list (list nat)) :=
  match assign_events st with
  | Ok st' => Some (lists_of st')
  | Raise _ => None
  end.

(** * The remaining helpers of the domain model *)

(** ** More of [str]: [strip], [split], [join] (ASCII) *)

(** [str.isspace] on an ASCII character: tab to carriage return, the four
    separators 28-31 and the space. *)
Definition is_space (c : ascii) : bool :=
  let n := nat_of_ascii c in
  (Nat.leb 9 n && Nat.leb n 13) || (Nat.leb 28 n && Nat.leb n 32).

Fixpoint lstrip (s : string) : string :=
  match s with
  | EmptyString => EmptyString
  | String c r => if is_space c then lstrip r else s
  end.

Fixpoint rstrip (s : string) : string :=
  match s with
  | EmptyString => EmptyString
  | String c r =>
    match rstrip r with
    | EmptyString => if is_space c then EmptyString else String c EmptyString
    | String c' r' => String c (String c' r')
    end
  end.

(** [s.strip()] *)
Definition strip (s : string) : string := lstrip (rstrip s).

(** [s.split(sep)] for a one-character separator: at least one part. *)
Fixpoint split_on (sep : ascii) (s : string) : list string :=
  match s with
  | EmptyString => [EmptyString]
  | String c r =>
    if Ascii.eqb c sep then EmptyString :: split_on sep r
    else match split_on sep r with
         | h :: t => String c h :: t
         | [] => [String c EmptyString]
         end
  end.



Definition pipe : ascii := "|"%char.

(** ** [parse_bool] and [parse_days] *)

Definition true_words : gset string :=
  {[ "y"%string; "yes"%string; "true"%string; "1"%string ]}.
Definition false_words : gset string :=
  {[ "n"%string; "no"%string; "false"%string; "0"%string ]}.

Definition parse_bool (value : option string) : option bool :=
  match value with
  | None => None
  | Some v =>
    let value := lower (strip v) in
    if negb (str_truthy value) then None
    else if bool_decide (value ∈ true_words) then Some true
    else if bool_decide (value ∈ false_words) then Some false
    else None
  end.

(** The body of the loop of [parse_days], lines 43-45. *)
Definition add_day (days : gset string) (part : string) : gset string :=
  let d := lower (strip part) in
  if str_truthy d then {[ d ]} ∪ days else days.

(** [value] is a [str] by its annotation and [None] for a short row. *)
Definition parse_days (value : option string) : gset string :=
  match value with
  | None => ∅
  | Some v =>
    if negb (str_truthy v) then ∅
    else fold_left add_day (split_on pipe v) ∅
  end.


(** Every character of [s] is white space. *)
Fixpoint all_space (s : string) : bool :=
  match s with
  | EmptyString => true
  | String c r => is_space c && all_space r
  end.

(** ** [read_participants], from the rows of the reader on

    A row of [csv.DictReader] maps the column names to the fields of the
    line; a field the line is too short for is [None].  [float] is a
    built-in and is taken as a parameter: [None] stands for its
    [ValueError]. *)

Inductive read_exn : Set := AttributeError | ValueError.

Inductive reading (A : Type) : Type :=
| Read (a : A)
| ReadError (e : read_exn).
Arguments Read {A} a.
Arguments ReadError {A} e.

(** [row.get(k)] *)
Definition row_get (row : gmap string (option string)) (k : string)
  : option string :=
  match row !! k with
  | Some v => v
  | None => None
  end.

(** [row.get(k, d)] *)
Definition row_get_or (row : gmap string (option string)) (k d : string)
  : option string :=
  match row !! k with
  | Some v => v
  | None => Some d
  end.

(** [v or None] for an [Optional[str]] *)
Definition or_none (v : option string) : option string :=
  match v with
  | Some s => if str_truthy s then Some s else None
  | None => None
  end.

(** The keyword arguments of lines 76-81, evaluated in order; the new
    participant gets the empty list of the default factory. *)
Definition participant_of_row (py_float : string -> option spec_float)
    (row : gmap string (option string)) : reading Participant.t :=
  match row_get_or row "name" "" with
  | None => ReadError AttributeError
  | Some n =>
    let name := strip n in
    let preferred_school := parse_bool (row_get row "preferred_school") in
    let preferred_days := parse_days (row_get_or row "preferred_days" "") in
    let read_distance :=
      match or_none (row_get row "distance") with
      | Some s =>
        match py_float s with
        | Some x => Read (Some x)
        | None => ReadError ValueError
        end
      | None => Read None
      end in
    match read_distance with
    | ReadError e => ReadError e
    | Read distance =>
      let country := or_none (row_get row "country") in
      let gender := or_none (Some (upper (strip (or_empty (row_get row "gender"))))) in
      Read (Participant.mk name preferred_school preferred_days distance
              country gender [])
    end
  end.

(** The loop of lines 74-83 with its accumulator [participants]. *)
Fixpoint read_loop (py_float : string -> option spec_float)
    (rows : list (gmap string (option string))) (participants : list Participant.t)
  : reading (list Participant.t) :=
  match rows with
  | [] => Read participants
  | row :: rest =>
    match participant_of_row py_float row with
    | Read participant => read_loop py_float rest (participants ++ [participant])
    | ReadError e => ReadError e
    end
  end.

Definition read_participants (py_float : string -> option spec_float)
    (rows : list (gmap string (option string))) : reading (list Participant.t) :=
  read_loop py_float rows [].

(** A toy [float] and two rows, to exercise the statements. *)
Definition float_of_sample (s : string) : option spec_float :=
  if String.eqb s "5.0" then Some float_5
  else if String.eqb s "50.0" then Some float_50
  else None.

Definition row_ana : gmap string (option string) :=
  {[ "name"%string := Some " Ana "%string;
     "preferred_school"%string := Some "Yes"%string;
     "preferred_days"%string := Some "Monday| friday"%string;
     "distance"%string := Some "5.0"%string;
     "country"%string := Some "PT"%string;
     "gender"%string := Some " f"%string ]}.

Definition row_short : gmap string (option string) :=
  {[ "name"%string := Some "Ben"%string;
     "preferred_school"%string := Some ""%string;
     "preferred_days"%string := None;
     "distance"%string := None;
     "country"%string := None;
     "gender"%string := None ]}.

Definition row_bad_distance : gmap string (option string) :=
  {[ "name"%string := Some "Cy"%string;
     "distance"%string := Some "far"%string ]}.

(** An event nobody can attend, and keys around a NaN distance. *)
Definition closed_event : Event.t :=
  Event.mk "Closed" (Date.mk 2024 3 1) "Hall" (-3) None [].

Definition closed_store : store := mkstore sample_participants [closed_event].

(** A participant with no school preference and no distance. *)
Definition dee : Participant.t :=
  Participant.mk "Dee" None {["monday"%string]} None (Some "PT"%string) None [].

(** The assignment relation, listed from the events' side and from the
    participants' side, as pairs (event position, participant position). *)
Definition event_pairs (st : store) : list (nat * nat) :=
  enumerate (events st)
    ≫= (fun eev => pair (fst eev) <$> Event.assignments (snd eev)).

Definition participant_pairs (st : store) : list (nat * nat) :=
  enumerate (participants st)
    ≫= (fun ip => (fun e => (e, fst ip)) <$> Participant.assignments (snd ip)).

(** ** [output_assignments]

    The function writes a file or prints; the embedding returns what it
    hands to the writer: the rows given to [csv.writer.writerow], the
    text given to [write], or the lines given to [print].  [tabulate] is
    an optional import and is taken as a parameter. *)

(** [str(n)] for a natural number. *)
Fixpoint decimal_digits (fuel n : nat) (acc : string) : string :=
  match fuel with
  | O => acc
  | S fuel' =>
    let acc' := String (ascii_of_nat (48 + n mod 10)) acc in
    if Nat.eqb (n / 10) 0 then acc' else decimal_digits fuel' (n / 10) acc'
  end.

Definition decimal (n : nat) : string := decimal_digits (S n) n EmptyString.

Fixpoint zeros (k : nat) : string :=
  match k with
  | O => EmptyString
  | S k' => String "0"%char (zeros k')
  end.

(** ["%0wd" % n] *)
Definition zero_padded (w n : nat) : string :=
  let s := decimal n in (zeros (w - String.length s) ++ s)%string.

(** [d.isoformat()], which is also [str(d)], for the dates of
    [datetime.date] (year 1 to 9999). *)
Definition isoformat (d : Date.t) : string :=
  (zero_padded 4 (Z.to_nat (Date.year d)) ++ "-"
   ++ zero_padded 2 (Z.to_nat (Date.month d)) ++ "-"
   ++ zero_padded 2 (Z.to_nat (Date.day d)))%string.

(** [s.endswith(suffix)] *)
Definition endswith (s suffix : string) : bool :=
  let n := String.length s in
  let m := String.length suffix in
  Nat.leb m n && String.eqb (substring (n - m) m s) suffix.

(** [event.assignments] as objects: the participants the list refers
    to. *)
Definition members (st : store) (e : Event.t) : list Participant.t :=
  omap (fun pi => participants st !! pi) (Event.assignments e).

Definition csv_header : list string :=
  ["event"; "date"; "location"; "participant"]%string.

(** The rows of lines 156-159. *)
Definition csv_rows (st : store) : list (list string) :=
  csv_header
  :: (events st ≫= fun event =>
        (fun p => [Event.name event; isoformat (Event.date event);
                   Event.location event; Participant.name p])
        <$> members st event).

Definition newline : string := String (ascii_of_nat 10) EmptyString.

Definition concat_strings (l : list string) : string :=
  fold_right String.append EmptyString l.

(** The text of lines 163-169, write after write. *)
Definition html_text (st : store) : string :=
  ("<html><body>" ++ newline
   ++ concat_strings
        ((fun event =>
            "<h2>" ++ Event.name event ++ " (" ++ isoformat (Event.date event)
            ++ ") at " ++ Event.location event ++ "</h2>" ++ newline ++ "<ul>"
            ++ concat_strings
                 ((fun p => "<li>" ++ Participant.name p ++ "</li>")
                  <$> members st event)
            ++ "</ul>" ++ newline)
         <$> events st)
   ++ "</body></html>")%string.

(** The lines of lines 172-180, one per call of [print]. *)
Definition printed_lines
    (tabulate : option (list (list string) -> list string -> string))
    (st : store) : list string :=
  events st ≫= fun event =>
    let rows :=
      (fun p => [Participant.name p; or_empty (Participant.country p);
                 or_empty (Participant.gender p)]) <$> members st event in
    [("Event: " ++ Event.name event ++ " (" ++ isoformat (Event.date event)
      ++ ") at " ++ Event.location event)%string]
    ++ match tabulate with
       | Some tab => [tab rows ["Participant"; "Country"; "Gender"]%string]
       | None =>
         (fun r => ("  - " ++ nth 0 r "" ++ " (" ++ nth 1 r "" ++ " "
                    ++ nth 2 r "" ++ ")")%string) <$> rows
       end
    ++ [EmptyString].

Inductive output : Type :=
| CsvWritten (path : string) (rows : list (list string))
| TextWritten (path : string) (text : string)
| Printed (lines : list string).

Definition output_assignments
    (tabulate : option (list (list string) -> list string -> string))
    (st : store) (path : option string) : output :=
  match or_none path with
  | Some p =>
    if endswith p ".csv" then CsvWritten p (csv_rows st)
    else if endswith p ".html" then TextWritten p (html_text st)
    else Printed (printed_lines tabulate st)
  | None => Printed (printed_lines tabulate st)
  end.

(** * Properties *)

(** ** The scenarios of the specification, run *)

Example monday_2024_01_15 :
  lower (Date.strftime_A (Date.mk 2024 1 15)) = "monday"%string.
Proof. reflexivity. Qed.

(** Scenario A: no day preference beats a mismatching one; the second
    slot goes to the other participant. *)
Example scenario_a_run :
  run_lists scenario_a = Some ([[0%nat]; [0%nat]], [[1%nat; 0%nat]]).
Proof. vm_compute. reflexivity. Qed.

(** Scenario B: distance 5.0 is ranked before distance 50.0. *)
Example scenario_b_keys :
  key_lt (candidate_key ana opening ∅ ∅) (candidate_key ben opening ∅ ∅) = true.
Proof. vm_compute. reflexivity. Qed.

(** Scenario C: ten days are too close, thirty-five are enough. *)
Example scenario_c_days :
  days_between (Event.date workshop) (Event.date opening) = 10
  /\ days_between (Event.date closing) (Event.date opening) = 35.
Proof. split; reflexivity. Qed.

(** Scenarios C and D on the sample roster: the second event, of capacity
    5, gets the one participant who is eligible; the third gets the two
    who are 35 days away from their first event. *)
Example sample_run_lists :
  run_lists sample_store
  = Some ([[0%nat; 2%nat]; [0%nat; 2%nat]; [1%nat]],
          [[0%nat; 1%nat]; [2%nat]; [1%nat; 0%nat]]).
Proof. vm_compute. reflexivity. Qed.

(** Scenario E: with one man committed, the woman wins the second slot
    over the man listed before her. *)
Example scenario_e_run :
  run_lists scenario_e = Some ([[0%nat]; []; [0%nat]], [[0%nat; 2%nat]]).
Proof. vm_compute. reflexivity. Qed.

(** Equal keys: the earlier participant of the input wins. *)
Example scenario_tie_run :
  run_lists scenario_tie = Some ([[0%nat]; []], [[0%nat]]).
Proof. vm_compute. reflexivity. Qed.

(** ** The ranking key *)

Lemma weekday_range (d : Date.t) : 0 <= Date.weekday d < 7.
Proof. unfold Date.weekday. apply Z.mod_pos_bound. lia. Qed.

Lemma lower_day_name (d : Date.t) :
  lower (Date.strftime_A d) = weekday_name d.
Proof.
  unfold Date.strftime_A, weekday_name.
  pose proof (weekday_range d) as Hr.
  assert (Hn : (Z.to_nat (Date.weekday d) < 7)%nat) by lia.
  destruct (Z.to_nat (Date.weekday d)) as [|[|[|[|[|[|[|n]]]]]]];
    try reflexivity; lia.
Qed.

Lemma counts_get_incr (c : gmap string Z) (k g : string) :
  counts_get (counts_incr c k) g
  = counts_get c g + (if decide (k = g) then 1 else 0).
Proof.
  unfold counts_incr, counts_get at 1.
  destruct (decide (k = g)) as [->|Hne].
  - rewrite lookup_insert_eq. reflexivity.
  - rewrite lookup_insert_ne by exact Hne. unfold counts_get. simpl. lia.
Qed.

Lemma str_truthy_false (s : string) : str_truthy s = false -> s = ""%string.
Proof.
  unfold str_truthy. intros H. apply negb_false_iff in H.
  apply String.eqb_eq in H. exact H.
Qed.

Lemma counts_get_incr_if (c : gmap string Z) (cand : option string) (g : string) :
  str_truthy g = true ->
  counts_get (counts_incr_if c cand) g = count_after_adding c cand g.
Proof.
  intros Hg. unfold counts_incr_if, count_after_adding.
  destruct cand as [s|].
  - destruct (str_truthy s) eqn:Hs.
    + rewrite counts_get_incr.
      destruct (decide (s = g)), (decide (Some s = Some g)); congruence.
    + apply str_truthy_false in Hs. subst s.
      destruct (decide (Some ""%string = Some g)) as [E|_]; [|lia].
      inversion E; subst g. discriminate Hg.
  - destruct (decide (None = Some g)); [discriminate|lia].
Qed.

Lemma gender_diff_spec (gc : gmap string Z) (p : Participant.t) :
  gender_diff gc (Participant.gender p) = genderScore gc p.
Proof.
  unfold gender_diff, genderScore.
  rewrite !counts_get_incr_if by reflexivity. reflexivity.
Qed.

Lemma candidate_key_spec (p : Participant.t) (e : Event.t)
    (cc gc : gmap string Z) :
  candidate_key p e cc gc = ranking_key p e cc gc.
Proof.
  unfold candidate_key, ranking_key.
  rewrite gender_diff_spec, lower_day_name.
  repeat (apply pair_equal_spec; split); [| | | |reflexivity].
  - unfold schoolMismatch.
    destruct (Participant.preferred_school p) as [a|],
             (Event.school_event e) as [b|]; try reflexivity.
    destruct a, b; reflexivity.
  - unfold dayMismatch.
    destruct (decide (Participant.preferred_days p ≠ ∅
                      ∧ weekday_name (Event.date e) ∉ Participant.preferred_days p))
      as [[H1 H2]|Hn].
    + rewrite !bool_decide_eq_true_2 by assumption. reflexivity.
    + destruct (bool_decide (Participant.preferred_days p ≠ ∅)) eqn:E1;
        [|reflexivity].
      destruct (bool_decide (weekday_name (Event.date e)
                             ∉ Participant.preferred_days p)) eqn:E2;
        [|reflexivity].
      apply bool_decide_eq_true_1 in E1, E2. tauto.
  - unfold distanceScore. destruct (Participant.distance p); reflexivity.
  - unfold countryScore, counts_get_opt, counts_get.
    destruct (Participant.country p) as [c|]; [|reflexivity].
    destruct (cc !! c); reflexivity.
Qed.

(** ** The order on keys *)

Lemma float_lt_rank (x y : spec_float) :
  is_nan x = false -> is_nan y = false ->
  (float_lt x y = true <-> lex_lt (let '(a, b, c) := float_rank x in [a; b; c])
                                 (let '(a, b, c) := float_rank y in [a; b; c])).
Proof.
  intros Hx Hy. unfold float_lt, SFltb.
  destruct x as [sx|sx| |sx mx ex], y as [sy|sy| |sy my ey];
    try discriminate; try destruct sx; try destruct sy; simpl;
    try (split; [discriminate|lia]); try (split; [lia|reflexivity]).
  - change (Pos.compare_cont Eq mx my) with (Pos.compare mx my).
    destruct (Z.compare_spec ex ey), (Pos.compare_spec mx my);
      simpl; split; intros; try discriminate; try reflexivity; try lia.
  - change (Pos.compare_cont Eq mx my) with (Pos.compare mx my).
    destruct (Z.compare_spec ex ey), (Pos.compare_spec mx my);
      simpl; split; intros; try discriminate; try reflexivity; try lia.
Qed.

Lemma float_eq_rank (x y : spec_float) :
  is_nan x = false -> is_nan y = false ->
  (float_eq x y = true <-> float_rank x = float_rank y).
Proof.
  intros Hx Hy. unfold float_eq, SFeqb.
  destruct x as [sx|sx| |sx mx ex], y as [sy|sy| |sy my ey];
    try discriminate; try destruct sx; try destruct sy; simpl;
    try (split; [discriminate|intros E; inversion E; lia]);
    try (split; reflexivity).
  - change (Pos.compare_cont Eq mx my) with (Pos.compare mx my).
    destruct (Z.compare_spec ex ey), (Pos.compare_spec mx my);
      simpl; split; intros E; try discriminate; try reflexivity;
      try (inversion E; lia); subst; reflexivity.
  - change (Pos.compare_cont Eq mx my) with (Pos.compare mx my).
    destruct (Z.compare_spec ex ey), (Pos.compare_spec mx my);
      simpl; split; intros E; try discriminate; try reflexivity;
      try (inversion E; lia); subst; reflexivity.
Qed.

Lemma key_lt_rank (a b : key) :
  key_ordered a = true -> key_ordered b = true ->
  (key_lt a b = true <-> lex_lt (key_rank a) (key_rank b)).
Proof.
  destruct a as [[[[s1 d1] x1] c1] g1], b as [[[[s2 d2] x2] c2] g2].
  unfold key_ordered, key_lt, key_rank. intros Ha Hb.
  apply negb_true_iff in Ha, Hb.
  pose proof (float_lt_rank x1 x2 Ha Hb) as Hlt.
  pose proof (float_eq_rank x1 x2 Ha Hb) as Heq.
  destruct (float_rank x1) as [[p1 p2] p3], (float_rank x2) as [[q1 q2] q3].
  simpl in Hlt |- *.
  assert (Heq' : float_eq x1 x2 = true <-> p1 = q1 /\ p2 = q2 /\ p3 = q3).
  { rewrite Heq. split; [intros E; inversion E; auto|intros (-> & -> & ->); reflexivity]. }
  clear Heq.
  destruct (Z.eqb_spec s1 s2), (Z.eqb_spec d1 d2); simpl;
    rewrite ?Z.ltb_lt; try lia.
  destruct (float_eq x1 x2) eqn:E; simpl.
  - destruct (Z.eqb_spec c1 c2), (Z.eqb_spec g1 g2); simpl;
      rewrite ?Z.ltb_lt; try lia.
  - rewrite Hlt.
    assert (Hne : ~ (p1 = q1 /\ p2 = q2 /\ p3 = q3))
      by (intros H; apply Heq' in H; discriminate).
    lia.
Qed.

Lemma lex_lt_irrefl (a : list Z) : ~ lex_lt a a.
Proof. induction a as [|x a IH]; simpl; [tauto|]. intros [H|[_ H]]; [lia|auto]. Qed.

Lemma lex_lt_trans (a b c : list Z) :
  lex_lt a b -> lex_lt b c -> lex_lt a c.
Proof.
  revert b c. induction a as [|x a IH]; intros [|y b] [|z c]; simpl; try tauto.
  intros [H1|[-> H1]] [H2|[-> H2]]; [left; lia|left; lia|left; lia|].
  right. split; [reflexivity|]. eapply IH; eassumption.
Qed.

Lemma lex_lt_negtrans (a b c : list Z) :
  length a = length b -> length b = length c ->
  ~ lex_lt a b -> ~ lex_lt b c -> ~ lex_lt a c.
Proof.
  revert b c. induction a as [|x a IH]; intros [|y b] [|z c]; simpl;
    try discriminate; try tauto.
  intros Hab Hbc H1 H2 [H3|[-> H3]].
  - assert (y <= x) by lia. assert (z <= y) by lia. lia.
  - assert (y = z) by lia. subst y.
    apply (IH b c); auto; tauto.
Qed.

Lemma key_rank_length (k : key) : length (key_rank k) = 7%nat.
Proof.
  destruct k as [[[[s d] x] c] g]. unfold key_rank.
  destruct (float_rank x) as [[? ?] ?]. reflexivity.
Qed.

Lemma float_lt_irrefl (x : spec_float) : float_lt x x = false.
Proof.
  unfold float_lt, SFltb.
  destruct x as [[|]|[|]| |[|] m e]; simpl; try reflexivity;
    change (Pos.compare_cont Eq m m) with (Pos.compare m m);
    rewrite Z.compare_refl, Pos.compare_refl; reflexivity.
Qed.

Lemma key_lt_irrefl (a : key) : key_lt a a = false.
Proof.
  destruct a as [[[[s d] x] c] g]. unfold key_lt.
  rewrite !Z.eqb_refl. simpl.
  destruct (float_eq x x); simpl; [reflexivity|apply float_lt_irrefl].
Qed.

Lemma key_lt_trans (a b c : key) :
  key_ordered a = true -> key_ordered b = true -> key_ordered c = true ->
  key_lt a b = true -> key_lt b c = true -> key_lt a c = true.
Proof.
  intros Ha Hb Hc. rewrite !key_lt_rank by assumption. apply lex_lt_trans.
Qed.

Lemma key_lt_negtrans (a b c : key) :
  key_ordered a = true -> key_ordered b = true -> key_ordered c = true ->
  key_lt a b = false -> key_lt b c = false -> key_lt a c = false.
Proof.
  intros Ha Hb Hc H1 H2.
  apply not_true_is_false. intros H3.
  apply key_lt_rank in H3; [|assumption..].
  revert H3. apply (lex_lt_negtrans _ (key_rank b)).
  - rewrite !key_rank_length. reflexivity.
  - rewrite !key_rank_length. reflexivity.
  - rewrite <- key_lt_rank by assumption. congruence.
  - rewrite <- key_lt_rank by assumption. congruence.
Qed.

(** ** The reference sort and the head of any stable sort *)

Section Sorting.

Context {A : Type} (f : A -> key).

Lemma insert_by_perm (x : A) (l : list A) :
  Permutation (x :: l) (insert_by f x l).
Proof.
  induction l as [|y r IH]; simpl; [reflexivity|].
  destruct (key_lt (f y) (f x)); [|reflexivity].
  rewrite perm_swap. apply perm_skip, IH.
Qed.

Lemma sort_by_perm (l : list A) : Permutation l (sort_by f l).
Proof.
  induction l as [|x r IH]; simpl; [reflexivity|].
  rewrite <- insert_by_perm. apply perm_skip, IH.
Qed.

Lemma head_insert_by (x : A) (l : list A) :
  head (insert_by f x l)
  = match head l with
    | Some m => if key_lt (f m) (f x) then Some m else Some x
    | None => Some x
    end.
Proof. destruct l as [|y r]; simpl; [reflexivity|]. destruct (key_lt (f y) (f x)); reflexivity. Qed.

(** The reference sort puts the first minimal item in front, whatever
    the keys are. *)
Lemma head_sort_by (l : list A) : head (sort_by f l) = first_min f l.
Proof.
  induction l as [|x r IH]; simpl; [reflexivity|].
  rewrite head_insert_by, IH. reflexivity.
Qed.

Lemma first_min_None (l : list A) : first_min f l = None -> l = [].
Proof.
  destruct l as [|x r]; simpl; [reflexivity|].
  destruct (first_min f r); [destruct (key_lt _ _)|]; discriminate.
Qed.

(** Where [<] orders the keys, [first_min] is what its name says:
    everything before it is strictly greater, nothing after it is
    smaller. *)
Lemma first_min_spec (l : list A) (c : A) :
  Forall (fun x => key_ordered (f x) = true) l ->
  first_min f l = Some c ->
  exists pre post,
    l = pre ++ c :: post
    /\ Forall (fun q => key_lt (f c) (f q) = true) pre
    /\ Forall (fun q => key_lt (f q) (f c) = false) post.
Proof.
  revert c. induction l as [|x r IH]; intros c Hord Hmin; [discriminate|].
  simpl in Hmin. inversion Hord as [|? ? Hx Hr]; subst.
  destruct (first_min f r) as [m|] eqn:Em.
  - destruct (IH m Hr eq_refl) as (pre & post & -> & Hpre & Hpost).
    assert (Hm : key_ordered (f m) = true).
    { rewrite Forall_forall in Hr. apply Hr. set_solver. }
    destruct (key_lt (f m) (f x)) eqn:Elt; inversion Hmin; subst c.
    + exists (x :: pre), post. repeat split; auto.
    + exists [], (pre ++ m :: post). repeat split; auto.
      rewrite Forall_forall in Hr, Hpre, Hpost |- *.
      intros q Hq. apply elem_of_app in Hq as [Hq|Hq].
      * destruct (key_lt (f q) (f x)) eqn:Eq; [|reflexivity].
        rewrite <- Elt. symmetry.
        apply (key_lt_trans _ (f q)); auto.
        apply Hr. set_solver.
      * apply elem_of_cons in Hq as [->|Hq]; [exact Elt|].
        apply (key_lt_negtrans _ (f m)); auto.
        apply Hr. set_solver.
  - apply first_min_None in Em. subst r. inversion Hmin; subst c.
    exists [], []. repeat split; auto.
Qed.

End Sorting.

Section SortContract.

Context {A : Type} (f : A -> key).

Local Abbreviation ordered := (item_ordered f).
Local Abbreviation asc := (ascending f).

Lemma key_lt_asym (a b : key) :
  key_ordered a = true -> key_ordered b = true ->
  key_lt a b = true -> key_lt b a = false.
Proof.
  intros Ha Hb Hab. destruct (key_lt b a) eqn:Hba; [|reflexivity].
  rewrite <- (key_lt_irrefl a). symmetry.
  apply (key_lt_trans a b a); assumption.
Qed.

Lemma insert_by_sorted (x : A) (s : list A) :
  ordered x -> Forall ordered s ->
  StronglySorted asc s -> StronglySorted asc (insert_by f x s).
Proof.
  intros Hx Hs Hsorted. induction Hsorted as [|y r Hr IH Hy]; simpl.
  - repeat constructor.
  - inversion Hs as [|? ? Hoy Hor]; subst.
    destruct (key_lt (f y) (f x)) eqn:Elt.
    + constructor; [apply IH, Hor|].
      eapply Permutation_Forall; [apply insert_by_perm|].
      constructor; [|exact Hy].
      unfold ascending. apply key_lt_asym; assumption.
    + constructor; [constructor; assumption|].
      constructor; [exact Elt|].
      rewrite Forall_forall in Hy, Hor |- *. intros z Hz.
      unfold ascending. apply (key_lt_negtrans _ (f y)); auto.
      * apply Hor, Hz.
      * apply Hy, Hz.
Qed.

Lemma sort_by_ordered (l : list A) :
  Forall ordered l -> Forall ordered (sort_by f l).
Proof. intros H. eapply Permutation_Forall; [apply sort_by_perm|exact H]. Qed.

Lemma sort_by_sorted (l : list A) :
  Forall ordered l -> StronglySorted asc (sort_by f l).
Proof.
  induction l as [|x r IH]; intros Hl; simpl; [constructor|].
  inversion Hl; subst.
  apply insert_by_sorted; auto using sort_by_ordered.
Qed.

Lemma insert_by_stable (k : key) (x : A) (s : list A) :
  key_ordered k = true -> ordered x -> Forall ordered s ->
  List.filter (fun y => key_equiv k (f y)) (insert_by f x s)
  = List.filter (fun y => key_equiv k (f y)) (x :: s).
Proof.
  intros Hk Hx Hs. induction s as [|y r IH]; [reflexivity|].
  inversion Hs as [|? ? Hy Hr]; subst.
  cbn [insert_by]. destruct (key_lt (f y) (f x)) eqn:Elt; [|reflexivity].
  cbn [List.filter]. rewrite (IH Hr). cbn [List.filter].
  destruct (key_equiv k (f x)) eqn:Ex, (key_equiv k (f y)) eqn:Ey;
    try reflexivity.
  exfalso. unfold key_equiv in Ex, Ey.
  apply andb_true_iff in Ex as [Ex1 _], Ey as [_ Ey2].
  apply negb_true_iff in Ex1, Ey2.
  rewrite (key_lt_negtrans (f y) k (f x)) in Elt by assumption.
  discriminate.
Qed.

Lemma sort_by_stable (k : key) (l : list A) :
  key_ordered k = true -> Forall ordered l ->
  List.filter (fun y => key_equiv k (f y)) (sort_by f l)
  = List.filter (fun y => key_equiv k (f y)) l.
Proof.
  intros Hk. induction l as [|x r IH]; intros Hl; [reflexivity|].
  inversion Hl; subst. cbn [sort_by].
  rewrite insert_by_stable by auto using sort_by_ordered.
  cbn [List.filter]. rewrite IH by assumption. reflexivity.
Qed.

Lemma filter_none (P : A -> bool) (l : list A) :
  Forall (fun x => P x = false) l -> List.filter P l = [].
Proof.
  induction 1 as [|x r Hx _ IH]; simpl; [reflexivity|].
  rewrite Hx. exact IH.
Qed.

(** Any sort that keeps the promise of [list.sort] puts the first
    minimal item in front. *)
Lemma contract_head
    (srt : forall A : Type, (A -> key) -> list A -> list A) (l : list A) :
  sort_contract srt -> Forall ordered l ->
  head (srt A f l) = first_min f l.
Proof.
  intros Hc Hl. destruct (Hc A f l) as [Hperm Hrest].
  destruct (Hrest Hl) as [Hsorted Hstable]. clear Hrest.
  destruct (first_min f l) as [c|] eqn:Emin.
  - destruct (first_min_spec f l c Hl Emin) as (pre & post & El & Hpre & Hpost).
    destruct (srt A f l) as [|h t] eqn:Es.
    { apply Permutation_sym, Permutation_nil in Hperm. subst l.
      destruct pre; discriminate. }
    simpl. f_equal.
    assert (Hcl : c ∈ l) by (subst l; set_solver).
    assert (Hhl : h ∈ l).
    { apply list_elem_of_In. eapply Permutation_in;
        [apply Permutation_sym, Hperm|]. left. reflexivity. }
    assert (Hoc : key_ordered (f c) = true).
    { rewrite Forall_forall in Hl. apply (Hl c Hcl). }
    assert (Hch : key_lt (f c) (f h) = false).
    { assert (Hc' : In c (h :: t)).
      { eapply Permutation_in; [exact Hperm|]. apply list_elem_of_In, Hcl. }
      destruct Hc' as [->|Hc']; [apply key_lt_irrefl|].
      inversion Hsorted as [|? ? _ Hh]; subst.
      rewrite Forall_forall in Hh. apply Hh, list_elem_of_In, Hc'. }
    assert (Hhc : key_lt (f h) (f c) = false).
    { rewrite El in Hhl. apply elem_of_app in Hhl as [Hh|Hh].
      - rewrite Forall_forall in Hpre. rewrite (Hpre h Hh) in Hch. discriminate.
      - apply elem_of_cons in Hh as [->|Hh]; [apply key_lt_irrefl|].
        rewrite Forall_forall in Hpost. apply Hpost, Hh. }
    specialize (Hstable (f c) Hoc). rewrite El in Hstable.
    rewrite List.filter_app in Hstable. cbn [List.filter] in Hstable.
    rewrite (filter_none _ pre) in Hstable.
    + assert (Eh : key_equiv (f c) (f h) = true)
        by (unfold key_equiv; rewrite Hch, Hhc; reflexivity).
      assert (Ec : key_equiv (f c) (f c) = true)
        by (unfold key_equiv; rewrite key_lt_irrefl; reflexivity).
      rewrite Eh, Ec in Hstable. simpl in Hstable.
      inversion Hstable. reflexivity.
    + eapply Forall_impl; [exact Hpre|].
      intros q Hq. unfold key_equiv. simpl in Hq. rewrite Hq. reflexivity.
  - apply first_min_None in Emin. subst l.
    apply Permutation_nil in Hperm. rewrite Hperm. reflexivity.
Qed.

End SortContract.

Lemma py_sort_perm (A : Type) (f : A -> key) (l : list A) :
  Permutation l (py_sort A f l).
Proof. apply sort_by_perm. Qed.

Lemma py_sort_contract : sort_contract py_sort.
Proof.
  intros A f l. split; [apply py_sort_perm|]. intros Hl. split.
  - apply sort_by_sorted, Hl.
  - intros k Hk. apply sort_by_stable; assumption.
Qed.

(** ** One commit *)

Lemma days_between_sym (d1 d2 : Date.t) : days_between d1 d2 = days_between d2 d1.
Proof. unfold days_between, Date.sub_days. lia. Qed.

Lemma days_between_same (d : Date.t) : days_between d d = 0.
Proof. unfold days_between, Date.sub_days. lia. Qed.

Lemma fmap_alter_static {X Y : Type} (g : X -> Y) (h : X -> X) (i : nat)
    (l : list X) :
  (forall x, g (h x) = g x) -> g <$> alter h i l = g <$> l.
Proof.
  intros Hg. apply list_eq. intros j. rewrite !list_lookup_fmap.
  destruct (decide (i = j)) as [->|Hne].
  - rewrite list_lookup_alter_eq. destruct (l !! j); simpl; [|reflexivity].
    rewrite Hg. reflexivity.
  - rewrite list_lookup_alter_ne by exact Hne. reflexivity.
Qed.

Lemma commit_same_static (st : store) (ei ci : nat) :
  same_static st (commit st ei ci).
Proof.
  split; simpl; symmetry; apply fmap_alter_static; intros []; reflexivity.
Qed.

Lemma same_static_refl (st : store) : same_static st st.
Proof. split; reflexivity. Qed.

Lemma same_static_trans (a b c : store) :
  same_static a b -> same_static b c -> same_static a c.
Proof. intros [H1 H2] [H3 H4]. split; congruence. Qed.

Lemma same_static_event (st st' : store) (e : nat) :
  same_static st st' ->
  event_static <$> (events st' !! e) = event_static <$> (events st !! e).
Proof. intros [H _]. rewrite <- !list_lookup_fmap, H. reflexivity. Qed.

Lemma same_static_linked (st st' : store) (ei : nat) (event : Event.t) :
  same_static st st' -> linked st ei event -> linked st' ei event.
Proof. unfold linked. intros H. rewrite (same_static_event st st' ei H). auto. Qed.

Lemma event_static_date (a b : Event.t) :
  event_static a = event_static b -> Event.date a = Event.date b.
Proof. unfold event_static. congruence. Qed.

Lemma linked_lookup (st : store) (ei : nat) (event : Event.t) :
  linked st ei event ->
  exists ev, events st !! ei = Some ev /\ event_static ev = event_static event.
Proof.
  unfold linked. destruct (events st !! ei) as [ev|]; simpl; [|discriminate].
  intros H. exists ev. split; congruence.
Qed.

Lemma same_static_date (st st' : store) (e : nat) :
  same_static st st' ->
  Event.date <$> (events st' !! e) = Event.date <$> (events st !! e).
Proof.
  intros H. pose proof (same_static_event st st' e H) as He.
  destruct (events st' !! e) as [a|], (events st !! e) as [b|];
    simpl in *; try discriminate; [|reflexivity].
  f_equal. apply event_static_date. congruence.
Qed.

Lemma spaced_static (st st' : store) (event : Event.t) (e : nat) :
  same_static st st' -> spaced st' event e = spaced st event e.
Proof.
  intros H. unfold spaced. pose proof (same_static_date st st' e H) as Hd.
  destruct (events st' !! e) as [a|], (events st !! e) as [b|];
    simpl in *; try discriminate; [|reflexivity].
  congruence.
Qed.

Lemma eligible_static (st st' : store) (event : Event.t) (p : Participant.t) :
  same_static st st' -> eligible st' event p = eligible st event p.
Proof.
  intros H. unfold eligible. f_equal.
  induction (Participant.assignments p) as [|e r IH]; simpl; [reflexivity|].
  rewrite IH, (spaced_static st st' event e H). reflexivity.
Qed.

Lemma assigned_commit (st : store) (ei ci e : nat) :
  (ei < length (events st))%nat ->
  assigned (commit st ei ci) e
  = if decide (e = ei) then assigned st e ++ [ci] else assigned st e.
Proof.
  intros Hlt. unfold assigned. simpl.
  destruct (decide (e = ei)) as [->|Hne].
  - rewrite list_lookup_alter_eq.
    destruct (lookup_lt_is_Some_2 _ _ Hlt) as [ev Hev]. rewrite Hev. reflexivity.
  - rewrite list_lookup_alter_ne by congruence. reflexivity.
Qed.

Lemma assignments_of_commit (st : store) (ei ci i : nat) :
  (ci < length (participants st))%nat ->
  assignments_of (commit st ei ci) i
  = if decide (i = ci) then assignments_of st i ++ [ei] else assignments_of st i.
Proof.
  intros Hlt. unfold assignments_of. simpl.
  destruct (decide (i = ci)) as [->|Hne].
  - rewrite list_lookup_alter_eq.
    destruct (lookup_lt_is_Some_2 _ _ Hlt) as [p Hp]. rewrite Hp. reflexivity.
  - rewrite list_lookup_alter_ne by congruence. reflexivity.
Qed.

Lemma candidates_elem (st : store) (event : Event.t) (i : nat)
    (p : Participant.t) :
  (i, p) ∈ candidates st event
  <-> participants st !! i = Some p /\ eligible st event p = true.
Proof.
  unfold candidates, enumerate.
  rewrite list_elem_of_In, filter_In, <- list_elem_of_In, elem_of_lookup_imap.
  simpl. split.
  - intros [(j & q & E & Hq) He]. inversion E; subst. auto.
  - intros [Hp He]. split; [exists i, p|]; auto.
Qed.

Lemma eligible_cap (st : store) (event : Event.t) (p : Participant.t) :
  eligible st event p = true ->
  (length (Participant.assignments p) < 2)%nat.
Proof.
  unfold eligible. intros H. apply andb_true_iff in H as [H _].
  apply Nat.ltb_lt in H. exact H.
Qed.

Lemma eligible_spaced (st : store) (event : Event.t) (p : Participant.t)
    (e : nat) :
  eligible st event p = true -> e ∈ Participant.assignments p ->
  exists other, events st !! e = Some other
    /\ 30 <= days_between (Event.date event) (Event.date other).
Proof.
  unfold eligible. intros H He. apply andb_true_iff in H as [_ H].
  rewrite forallb_forall in H. apply list_elem_of_In in He.
  specialize (H e He). unfold spaced in H.
  destruct (events st !! e) as [other|]; [|discriminate].
  exists other. split; [reflexivity|]. apply Z.leb_le, H.
Qed.

(** A participant already in the event is not eligible for it: the event
    is zero days from itself. *)
Lemma eligible_not_member (st : store) (ei : nat) (event : Event.t)
    (p : Participant.t) :
  linked st ei event -> eligible st event p = true ->
  ei ∉ Participant.assignments p.
Proof.
  intros Hl He Hin.
  destruct (eligible_spaced st event p ei He Hin) as (other & Ho & Hd).
  destruct (linked_lookup st ei event Hl) as (ev & Hev & Hs).
  rewrite Hev in Ho. inversion Ho; subst other.
  rewrite <- (event_static_date _ _ Hs), days_between_same in Hd. lia.
Qed.

Lemma commit_consistent (st : store) (ei ci : nat) (event : Event.t)
    (chosen : Participant.t) :
  consistent st -> linked st ei event ->
  participants st !! ci = Some chosen -> eligible st event chosen = true ->
  consistent (commit st ei ci).
Proof.
  intros [Hf Hb Hcap Hsp Hnd] Hl Hc He.
  destruct (linked_lookup st ei event Hl) as (ev & Hev & Hs).
  assert (Hei : (ei < length (events st))%nat) by (eapply lookup_lt_Some; eauto).
  assert (Hci : (ci < length (participants st))%nat) by (eapply lookup_lt_Some; eauto).
  assert (Hac : assignments_of st ci = Participant.assignments chosen)
    by (unfold assignments_of; rewrite Hc; reflexivity).
  constructor.
  - intros i e. rewrite assignments_of_commit, assigned_commit by assumption.
    destruct (decide (i = ci)) as [->|Hi], (decide (e = ei)) as [->|He'];
      rewrite ?elem_of_app, ?list_elem_of_singleton; intros H.
    + right. reflexivity.
    + destruct H as [H|H]; [auto|contradiction].
    + left. auto.
    + auto.
  - intros i e. rewrite assignments_of_commit, assigned_commit by assumption.
    destruct (decide (i = ci)) as [->|Hi], (decide (e = ei)) as [->|He'];
      rewrite ?elem_of_app, ?list_elem_of_singleton; intros H.
    + right. reflexivity.
    + left. auto.
    + destruct H as [H|H]; [auto|contradiction].
    + auto.
  - intros i. rewrite assignments_of_commit by assumption.
    destruct (decide (i = ci)) as [->|Hi]; [|apply Hcap].
    rewrite length_app, Hac. simpl.
    pose proof (eligible_cap st event chosen He). lia.
  - intros i j k e1 e2 ev1 ev2 Hjk.
    rewrite assignments_of_commit by assumption.
    intros H1 H2 Hev1 Hev2.
    pose proof (same_static_date st (commit st ei ci) e1
                  (commit_same_static st ei ci)) as Hd1.
    pose proof (same_static_date st (commit st ei ci) e2
                  (commit_same_static st ei ci)) as Hd2.
    rewrite Hev1 in Hd1. rewrite Hev2 in Hd2.
    destruct (events st !! e1) as [o1|] eqn:Eo1; [|discriminate].
    destruct (events st !! e2) as [o2|] eqn:Eo2; [|discriminate].
    simpl in Hd1, Hd2. inversion Hd1 as [D1]. inversion Hd2 as [D2].
    rewrite D1, D2.
    destruct (decide (i = ci)) as [->|Hi]; [|eapply (Hsp i j k); eauto].
    apply lookup_app_Some in H1, H2.
    rewrite Hac in *.
    destruct H1 as [H1|[Hj H1]], H2 as [H2|[Hk H2]].
    + eapply (Hsp ci j k); eauto; rewrite Hac; assumption.
    + apply list_lookup_singleton_Some in H2 as [_ <-].
      apply list_elem_of_lookup_2 in H1.
      destruct (eligible_spaced st event chosen e1 He H1) as (other & Ho & Hd).
      rewrite Eo1 in Ho. inversion Ho; subst other.
      rewrite Hev in Eo2. inversion Eo2; subst o2.
      rewrite (event_static_date _ _ Hs), days_between_sym. exact Hd.
    + apply list_lookup_singleton_Some in H1 as [_ <-].
      apply list_elem_of_lookup_2 in H2.
      destruct (eligible_spaced st event chosen e2 He H2) as (other & Ho & Hd).
      rewrite Eo2 in Ho. inversion Ho; subst other.
      rewrite Hev in Eo1. inversion Eo1; subst o1.
      rewrite (event_static_date _ _ Hs). exact Hd.
    + apply list_lookup_singleton_Some in H1 as [Hj' _].
      apply list_lookup_singleton_Some in H2 as [Hk' _]. lia.
  - intros e. rewrite assigned_commit by assumption.
    destruct (decide (e = ei)) as [->|He']; [|apply Hnd].
    apply NoDup_app. split; [apply Hnd|]. split; [|apply NoDup_singleton].
    intros x Hx Hx'. apply list_elem_of_singleton in Hx'. subst x.
    apply Hb in Hx. rewrite Hac in Hx.
    exact (eligible_not_member st ei event chosen Hl He Hx).
Qed.

(** ** The loops, for any sort that returns a permutation *)

Section EngineFacts.

Variable list_sort : forall A : Type, (A -> key) -> list A -> list A.
Hypothesis list_sort_perm :
  forall (A : Type) (f : A -> key) (l : list A),
    Permutation l (list_sort A f l).

(** One iteration either breaks on an empty pool or commits a member of
    the pool; it never raises. *)
Lemma slot_cases (ei : nat) (event : Event.t) (s : loop_state) :
  (candidates (ls_store s) event = [] /\ slot list_sort ei event s = Ok None)
  \/ exists ci chosen,
       (ci, chosen) ∈ candidates (ls_store s) event
       /\ slot list_sort ei event s
          = Ok (Some (mkloop (commit (ls_store s) ei ci)
                        (counts_incr_if (country_counts s)
                           (Participant.country chosen))
                        (counts_incr_if (gender_counts s)
                           (Participant.gender chosen)))).
Proof.
  unfold slot.
  destruct (candidates (ls_store s) event) as [|c0 cs] eqn:Ec; [left; auto|].
  right.
  pose proof (list_sort_perm _
                (slot_key event (country_counts s) (gender_counts s))
                (c0 :: cs)) as Hperm.
  destruct (list_sort _ _ (c0 :: cs)) as [|[ci chosen] t].
  - apply Permutation_sym, Permutation_nil in Hperm. discriminate.
  - exists ci, chosen. split; [|reflexivity].
    apply list_elem_of_In. eapply Permutation_in;
      [apply Permutation_sym, Hperm|]. left. reflexivity.
Qed.

(** Induction over the slots of one event: a property of loop states
    kept by every commit of an eligible participant holds at every commit
    point and at the end, and the loop returns. *)
Lemma fill_slots_invariant (Q : loop_state -> Prop) (ei : nat) (event : Event.t) :
  (forall s ci chosen,
      Q s -> (ci, chosen) ∈ candidates (ls_store s) event ->
      Q (mkloop (commit (ls_store s) ei ci)
           (counts_incr_if (country_counts s) (Participant.country chosen))
           (counts_incr_if (gender_counts s) (Participant.gender chosen)))) ->
  forall n s,
    Q s ->
    exists s', fill_slots list_sort n ei event s = Ok s'
               /\ Q s'
               /\ Forall Q (fill_trace list_sort n ei event s).
Proof.
  intros Hstep. induction n as [|n IH]; intros s Hs; simpl.
  - exists s. repeat split; auto.
  - destruct (slot_cases ei event s) as [[_ E]|(ci & chosen & Hin & E)];
      rewrite E; simpl.
    + exists s. repeat split; auto.
    + destruct (IH _ (Hstep s ci chosen Hs Hin)) as (s' & E' & Hs' & Ht).
      exists s'. repeat split; auto.
Qed.

Lemma assign_loop_invariant (P : store -> Prop) (evs : list (nat * Event.t)) :
  (forall ei event st ci chosen,
      (ei, event) ∈ evs -> P st -> (ci, chosen) ∈ candidates st event ->
      P (commit st ei ci)) ->
  forall st,
    P st ->
    exists st', assign_loop list_sort evs st = Ok st'
                /\ P st'
                /\ Forall P (assign_trace list_sort evs st).
Proof.
  induction evs as [|[ei event] rest IH]; intros Hstep st Hst; simpl.
  - exists st. repeat split; auto.
  - destruct (fill_slots_invariant (fun s => P (ls_store s)) ei event
                (fun s ci chosen => Hstep ei event (ls_store s) ci chosen
                                      ltac:(set_solver))
                (Z.to_nat (Event.capacity event)) (mkloop st ∅ ∅) Hst)
      as (s' & E & Hs' & Ht).
    unfold fill_event. rewrite E. simpl.
    destruct (IH (fun ei' event' st0 ci chosen H =>
                    Hstep ei' event' st0 ci chosen ltac:(set_solver))
                (ls_store s') Hs')
      as (st' & E' & Hst' & Ht').
    exists st'. repeat split; auto.
    apply Forall_app. split; [|assumption].
    apply Forall_fmap. exact Ht.
Qed.

(** The run returns, and every store it goes through keeps the
    relationship invariants and the static fields of the input. *)
Lemma assign_events_consistent (st : store) :
  consistent st ->
  exists st', assign_events_with list_sort st = Ok st'
    /\ (consistent st' /\ same_static st st')
    /\ Forall (fun x => consistent x /\ same_static st x)
              (commit_points list_sort st).
Proof.
  intros Hc. unfold assign_events_with, commit_points.
  apply (assign_loop_invariant (fun x => consistent x /\ same_static st x)).
  - intros ei event st1 ci chosen Hin [Hc1 Hs1] Hcand.
    apply candidates_elem in Hcand as [Hp He].
    split.
    + eapply commit_consistent; eauto.
      apply (same_static_linked st); [exact Hs1|].
      unfold enumerate in Hin.
      apply elem_of_lookup_imap in Hin as (j & ev & E & Hev).
      inversion E; subst. unfold linked. rewrite Hev. reflexivity.
    + eapply same_static_trans; [exact Hs1|apply commit_same_static].
  - split; [exact Hc|apply same_static_refl].
Qed.

End EngineFacts.

(** ** The pool of candidates across a commit *)

Lemma enumerate_fst {X : Type} (l : list X) :
  (enumerate l).*1 = seq 0 (length l).
Proof.
  unfold enumerate. rewrite fmap_imap.
  rewrite (imap_ext _ (fun j _ => id j)) by reflexivity.
  rewrite imap_seq_0. apply list_fmap_id.
Qed.

Lemma enumerate_lookup {X : Type} (l : list X) (i : nat) (x : X) :
  (i, x) ∈ enumerate l <-> l !! i = Some x.
Proof.
  unfold enumerate. rewrite elem_of_lookup_imap. split.
  - intros (j & y & E & H). inversion E; subst. exact H.
  - intros H. exists i, x. auto.
Qed.

Lemma eligible_after_append (st : store) (ei : nat) (event : Event.t)
    (p : Participant.t) :
  linked st ei event ->
  eligible st event (participant_append ei p) = false.
Proof.
  intros Hl. unfold eligible. simpl. rewrite forallb_app. simpl.
  destruct (linked_lookup st ei event Hl) as (ev & Hev & Hs).
  unfold spaced at 2. rewrite Hev.
  rewrite <- (event_static_date _ _ Hs), days_between_same. simpl.
  rewrite andb_false_r, andb_false_r. reflexivity.
Qed.

(** Committing a candidate removes exactly that candidate from the pool
    of the event being filled. *)
Lemma candidates_commit (st : store) (ei ci : nat) (event : Event.t)
    (chosen : Participant.t) :
  linked st ei event -> (ci, chosen) ∈ candidates st event ->
  exists pre post,
    candidates st event = pre ++ (ci, chosen) :: post
    /\ candidates (commit st ei ci) event = pre ++ post.
Proof.
  intros Hl Hin. apply candidates_elem in Hin as [Hp He].
  destruct (list_elem_of_split_length _ _ _ Hp) as (l1 & l2 & Eps & Eci).
  set (E := fun ip : nat * Participant.t => eligible st event (snd ip)).
  exists (List.filter E (enumerate l1)),
         (List.filter E (imap (fun n => pair (length l1 + S n)%nat) l2)).
  assert (E' : forall l,
             List.filter (fun ip => eligible (commit st ei ci) event (snd ip)) l
             = List.filter E l).
  { intros l. apply List.filter_ext. intros [i q]. simpl.
    apply eligible_static, commit_same_static. }
  unfold candidates. rewrite E'. fold E. simpl participants.
  rewrite Eps. subst ci.
  rewrite alter_app_r_alt by lia. rewrite Nat.sub_diag. simpl alter.
  unfold enumerate. rewrite !imap_app, !List.filter_app.
  cbn [imap List.filter].
  replace (E (length l1 + 0, chosen)%nat) with true by (symmetry; exact He).
  replace (E (length l1 + 0, participant_append ei chosen)%nat) with false
    by (symmetry; apply eligible_after_append, Hl).
  rewrite Nat.add_0_r. split; reflexivity.
Qed.

Lemma assigned_commit_ne (st : store) (ei ci e : nat) :
  e <> ei -> assigned (commit st ei ci) e = assigned st e.
Proof.
  intros Hne. unfold assigned. simpl.
  rewrite list_lookup_alter_ne by congruence. reflexivity.
Qed.

Lemma linked_valid (st : store) (ei : nat) (event : Event.t) :
  linked st ei event -> (ei < length (events st))%nat.
Proof.
  intros Hl. destruct (linked_lookup st ei event Hl) as (ev & Hev & _).
  eapply lookup_lt_Some; eauto.
Qed.

(** ** How many slots of an event get filled *)

Section Counting.

Variable list_sort : forall A : Type, (A -> key) -> list A -> list A.
Hypothesis list_sort_perm :
  forall (A : Type) (f : A -> key) (l : list A),
    Permutation l (list_sort A f l).

Lemma fill_slots_count (ei : nat) (event : Event.t) (n : nat) :
  forall s,
    linked (ls_store s) ei event ->
    exists s',
      fill_slots list_sort n ei event s = Ok s'
      /\ length (assigned (ls_store s') ei)
         = (length (assigned (ls_store s) ei)
            + Nat.min n (length (candidates (ls_store s) event)))%nat
      /\ (forall e, e <> ei ->
            assigned (ls_store s') e = assigned (ls_store s) e)
      /\ same_static (ls_store s) (ls_store s').
Proof.
  induction n as [|n IH]; intros s Hl; simpl.
  - exists s. repeat split; auto using same_static_refl; lia.
  - destruct (slot_cases list_sort list_sort_perm ei event s)
      as [[Ec E]|(ci & chosen & Hin & E)]; rewrite E; simpl.
    + exists s. rewrite Ec. repeat split; auto using same_static_refl.
      all: simpl; lia.
    + destruct (candidates_commit _ _ _ _ _ Hl Hin)
        as (pre & post & Eold & Enew).
      pose proof (commit_same_static (ls_store s) ei ci) as Hst.
      destruct (IH (mkloop (commit (ls_store s) ei ci)
                      (counts_incr_if (country_counts s)
                         (Participant.country chosen))
                      (counts_incr_if (gender_counts s)
                         (Participant.gender chosen))))
        as (s' & E' & Hlen & Hframe & Hst').
      { simpl. eapply same_static_linked; eauto. }
      simpl in Hlen, Hframe, Hst'.
      exists s'. split; [exact E'|]. split; [|split].
      * change (length (assigned (ls_store s') ei)
                = (length (assigned (ls_store s) ei)
                   + Nat.min (S n)
                       (length (candidates (ls_store s) event)))%nat).
        rewrite Hlen, Enew, Eold.
        rewrite assigned_commit by (eapply linked_valid; eauto).
        rewrite decide_True by reflexivity.
        rewrite !length_app. cbn [length]. lia.
      * intros e He. rewrite Hframe by exact He.
        apply assigned_commit_ne, He.
      * eapply same_static_trans; eauto.
Qed.

Lemma fill_event_count (ei : nat) (event : Event.t) (st : store) :
  linked st ei event ->
  exists st',
    fill_event list_sort ei event st = Ok st'
    /\ length (assigned st' ei)
       = (length (assigned st ei)
          + Nat.min (Z.to_nat (Event.capacity event))
                    (length (candidates st event)))%nat
    /\ (forall e, e <> ei -> assigned st' e = assigned st e)
    /\ same_static st st'.
Proof.
  intros Hl.
  destruct (fill_slots_count ei event (Z.to_nat (Event.capacity event))
              (mkloop st ∅ ∅) Hl) as (s' & E & H1 & H2 & H3).
  exists (ls_store s'). unfold fill_event. rewrite E. simpl. auto.
Qed.

(** Events outside of [evs] keep their participants over the loop. *)
Lemma assign_loop_frame (evs : list (nat * Event.t)) (st : store) (e : nat) :
  e ∉ evs.*1 ->
  exists st',
    assign_loop list_sort evs st = Ok st'
    /\ assigned st' e = assigned st e
    /\ same_static st st'.
Proof.
  intros Hnot.
  destruct (assign_loop_invariant list_sort list_sort_perm
              (fun x => assigned x e = assigned st e /\ same_static st x) evs)
    with (st := st) as (st' & E & [H1 H2] & _).
  - intros ei event st1 ci chosen Hin [Ha Hs] _. split.
    + rewrite <- Ha. apply assigned_commit_ne.
      intros ->. apply Hnot. apply list_elem_of_fmap. exists (ei, event). auto.
    + eapply same_static_trans; [exact Hs|apply commit_same_static].
  - split; [reflexivity|apply same_static_refl].
  - exists st'. auto.
Qed.

Lemma assign_loop_app (pre post : list (nat * Event.t)) (st : store) :
  assign_loop list_sort (pre ++ post) st
  = st1 ← assign_loop list_sort pre st; assign_loop list_sort post st1.
Proof.
  revert st. induction pre as [|[ei event] pre IH]; intros st; simpl;
    [reflexivity|].
  destruct (fill_event list_sort ei event st) as [st1|e]; simpl;
    [apply IH|reflexivity].
Qed.

(** The run seen from one event: the events before it leave it empty,
    its own turn fills [min capacity pool] slots, the events after it
    leave it alone. *)
Lemma assign_events_event (st0 : store) (pre post : list (nat * Event.t))
    (ei : nat) (event : Event.t) :
  enumerate (events st0) = pre ++ (ei, event) :: post ->
  exists st1 st2 st',
    assign_loop list_sort pre st0 = Ok st1
    /\ fill_event list_sort ei event st1 = Ok st2
    /\ assign_loop list_sort post st2 = Ok st'
    /\ assign_events_with list_sort st0 = Ok st'
    /\ assigned st1 ei = assigned st0 ei
    /\ length (assigned st2 ei)
       = (length (assigned st1 ei)
          + Nat.min (Z.to_nat (Event.capacity event))
                    (length (candidates st1 event)))%nat
    /\ assigned st' ei = assigned st2 ei
    /\ same_static st0 st1 /\ same_static st0 st'.
Proof.
  intros Hsplit.
  assert (Hnd : NoDup ((pre ++ (ei, event) :: post).*1)).
  { rewrite <- Hsplit, enumerate_fst. apply NoDup_seq. }
  rewrite fmap_app, fmap_cons in Hnd. simpl in Hnd.
  apply NoDup_app in Hnd as (_ & Hpre & Hpost).
  apply NoDup_cons in Hpost as [Hpost _].
  assert (Hpre' : ei ∉ pre.*1)
    by (intros H; apply (Hpre ei H), elem_of_cons; left; reflexivity).
  assert (Hl0 : linked st0 ei event).
  { unfold linked.
    assert (Hin : (ei, event) ∈ enumerate (events st0))
      by (rewrite Hsplit; set_solver).
    apply enumerate_lookup in Hin. rewrite Hin. reflexivity. }
  destruct (assign_loop_frame pre st0 ei Hpre') as (st1 & E1 & Ha1 & Hs1).
  destruct (fill_event_count ei event st1 (same_static_linked _ _ _ _ Hs1 Hl0))
    as (st2 & E2 & Hlen & _ & Hs2).
  destruct (assign_loop_frame post st2 ei Hpost) as (st' & E3 & Ha3 & Hs3).
  exists st1, st2, st'. repeat split; auto.
  - unfold assign_events_with. rewrite Hsplit, assign_loop_app, E1. simpl.
    rewrite E2. simpl. exact E3.
  - apply Hs1.
  - apply Hs1.
  - eapply same_static_trans; [|exact Hs3].
    eapply same_static_trans; eauto.
  - eapply same_static_trans; [|exact Hs3].
    eapply same_static_trans; eauto.
Qed.

End Counting.

(** ** What the counters count *)

Lemma same_static_participant (st st' : store) (i : nat) :
  same_static st st' ->
  participant_static <$> (participants st' !! i)
  = participant_static <$> (participants st !! i).
Proof. intros [_ H]. rewrite <- !list_lookup_fmap, H. reflexivity. Qed.

Lemma tally_static (attr : Participant.t -> option string) (st st' : store)
    (members : list nat) (v : string) :
  (forall p q, participant_static p = participant_static q -> attr p = attr q) ->
  same_static st st' ->
  tally attr st' members v = tally attr st members v.
Proof.
  intros Hattr Hs. unfold tally. do 2 f_equal.
  apply List.filter_ext. intros i.
  pose proof (same_static_participant st st' i Hs) as Hi.
  destruct (participants st' !! i) as [p|], (participants st !! i) as [q|];
    simpl in Hi; try discriminate; [|reflexivity].
  inversion Hi as [E]. rewrite (Hattr p q) by (unfold participant_static; congruence).
  reflexivity.
Qed.

Lemma tally_snoc (attr : Participant.t -> option string) (st : store)
    (members : list nat) (i : nat) (p : Participant.t) (v : string) :
  participants st !! i = Some p ->
  tally attr st (members ++ [i]) v
  = tally attr st members v + (if bool_decide (attr p = Some v) then 1 else 0).
Proof.
  intros Hp. unfold tally. rewrite List.filter_app, length_app. simpl.
  rewrite Hp. destruct (bool_decide (attr p = Some v)); simpl; lia.
Qed.

Lemma counts_get_incr_if_any (c : gmap string Z) (cand : option string)
    (v : string) :
  counts_get (counts_incr_if c cand) v
  = counts_get c v
    + (if str_truthy v && bool_decide (cand = Some v) then 1 else 0).
Proof.
  unfold counts_incr_if. destruct cand as [s|].
  - destruct (str_truthy s) eqn:Hs.
    + rewrite counts_get_incr.
      destruct (decide (s = v)) as [->|Hne].
      * rewrite Hs, bool_decide_eq_true_2 by reflexivity. reflexivity.
      * rewrite bool_decide_eq_false_2 by congruence.
        rewrite andb_false_r. reflexivity.
    + destruct (decide (s = v)) as [->|Hne].
      * rewrite Hs. simpl. lia.
      * rewrite bool_decide_eq_false_2 by congruence.
        rewrite andb_false_r. lia.
  - rewrite bool_decide_eq_false_2 by discriminate.
    rewrite andb_false_r. lia.
Qed.

Lemma counters_tally_commit (ei ci : nat) (event : Event.t) (s : loop_state)
    (chosen : Participant.t) :
  linked (ls_store s) ei event ->
  participants (ls_store s) !! ci = Some chosen ->
  counters_tally ei s ->
  counters_tally ei
    (mkloop (commit (ls_store s) ei ci)
       (counts_incr_if (country_counts s) (Participant.country chosen))
       (counts_incr_if (gender_counts s) (Participant.gender chosen))).
Proof.
  intros Hl Hp Ht v. destruct (Ht v) as [Hc Hg]. simpl.
  rewrite !counts_get_incr_if_any, Hc, Hg.
  rewrite assigned_commit by (eapply linked_valid; eauto).
  rewrite decide_True by reflexivity.
  rewrite !(tally_static _ (ls_store s) (commit (ls_store s) ei ci))
    by (try apply commit_same_static; unfold participant_static; congruence).
  rewrite !(tally_snoc _ _ _ ci chosen) by exact Hp.
  destruct (str_truthy v); simpl; split; try reflexivity.
Qed.

Lemma counters_tally_init (ei : nat) (st : store) :
  assigned st ei = [] -> counters_tally ei (mkloop st ∅ ∅).
Proof.
  intros Ha v. simpl. rewrite Ha. unfold counts_get. rewrite lookup_empty.
  unfold tally. simpl. destruct (str_truthy v); split; reflexivity.
Qed.

(** In the turn of an event that starts with no member, the counters are
    the tallies of the event's list before the first slot and after every
    commit: a candidate's country score is the number of participants of
    its country already committed to this event. *)
Lemma counters_are_tallies
    (srt : forall A : Type, (A -> key) -> list A -> list A)
    (ei : nat) (event : Event.t) (st : store) (n : nat) :
  (forall (A : Type) (f : A -> key) (l : list A), Permutation l (srt A f l)) ->
  linked st ei event -> assigned st ei = [] ->
  Forall (counters_tally ei)
         (mkloop st ∅ ∅ :: fill_trace srt n ei event (mkloop st ∅ ∅)).
Proof.
  intros Hperm Hl Ha.
  destruct (fill_slots_invariant srt Hperm
              (fun s => counters_tally ei s /\ linked (ls_store s) ei event)
              ei event) with (n := n) (s := mkloop st ∅ ∅)
    as (s' & _ & _ & Ht).
  - intros s ci chosen [Hc Hls] Hin.
    apply candidates_elem in Hin as [Hp _]. split.
    + apply (counters_tally_commit ei ci event s chosen); assumption.
    + simpl. eapply same_static_linked; [apply commit_same_static|exact Hls].
  - split; [apply counters_tally_init, Ha|exact Hl].
  - constructor; [apply counters_tally_init, Ha|].
    eapply Forall_impl; [exact Ht|]. intros x [Hx _]. exact Hx.
Qed.

(** ** Fresh stores *)

Lemma fresh_assignments_of (st : store) (i : nat) :
  fresh st = true -> assignments_of st i = [].
Proof.
  unfold fresh, assignments_of. intros H. apply andb_true_iff in H as [H _].
  destruct (participants st !! i) as [p|] eqn:Ep; [|reflexivity].
  rewrite forallb_forall in H.
  specialize (H p (proj1 (list_elem_of_In _ _) (list_elem_of_lookup_2 _ _ _ Ep))).
  destruct (Participant.assignments p); [reflexivity|discriminate].
Qed.

Lemma fresh_assigned (st : store) (e : nat) :
  fresh st = true -> assigned st e = [].
Proof.
  unfold fresh, assigned. intros H. apply andb_true_iff in H as [_ H].
  destruct (events st !! e) as [ev|] eqn:Ee; [|reflexivity].
  rewrite forallb_forall in H.
  specialize (H ev (proj1 (list_elem_of_In _ _) (list_elem_of_lookup_2 _ _ _ Ee))).
  destruct (Event.assignments ev); [reflexivity|discriminate].
Qed.

Lemma fresh_consistent (st : store) : fresh st = true -> consistent st.
Proof.
  intros H. constructor.
  - intros i e. rewrite fresh_assignments_of by exact H. intros Hin.
    apply elem_of_nil in Hin. contradiction.
  - intros i e. rewrite fresh_assigned by exact H. intros Hin.
    apply elem_of_nil in Hin. contradiction.
  - intros i. rewrite fresh_assignments_of by exact H. simpl. lia.
  - intros i j k e1 e2 ev1 ev2 _.
    rewrite fresh_assignments_of by exact H. discriminate.
  - intros e. rewrite fresh_assigned by exact H. constructor.
Qed.

Lemma assigned_lookup (st : store) (ei : nat) (e : Event.t) :
  events st !! ei = Some e -> assigned st ei = Event.assignments e.
Proof. unfold assigned. intros ->. reflexivity. Qed.

Lemma assignments_of_lookup (st : store) (pi : nat) (p : Participant.t) :
  participants st !! pi = Some p -> assignments_of st pi = Participant.assignments p.
Proof. unfold assignments_of. intros ->. reflexivity. Qed.

(** The run of the engine as shipped: it returns, and the result and all
    commit points keep the invariants. *)
Lemma assign_events_run (st : store) :
  fresh st = true ->
  exists st', assign_events st = Ok st'
    /\ consistent st' /\ same_static st st'
    /\ Forall consistent (commit_points py_sort st).
Proof.
  intros H.
  destruct (assign_events_consistent py_sort py_sort_perm st
              (fresh_consistent st H)) as (st' & E & [Hc Hs] & Ht).
  exists st'. split; [exact E|]. split; [exact Hc|]. split; [exact Hs|].
  eapply Forall_impl; [exact Ht|]. intros x [Hx _]. exact Hx.
Qed.

Lemma sample_run : assign_events sample_store = Ok sample_result.
Proof. vm_compute. reflexivity. Qed.

(** ** The commit points end in the result *)

Lemma fill_slots_last (srt : forall A : Type, (A -> key) -> list A -> list A)
    (ei : nat) (event : Event.t) (n : nat) :
  forall s s',
    fill_slots srt n ei event s = Ok s' ->
    last (ls_store s :: (ls_store <$> fill_trace srt n ei event s))
    = Some (ls_store s').
Proof.
  induction n as [|n IH]; intros s s' E; simpl in *.
  - inversion E; subst. reflexivity.
  - destruct (slot srt ei event s) as [[s1|]|e]; simpl in E.
    + rewrite fmap_cons, last_cons_cons. apply IH, E.
    + inversion E; subst. reflexivity.
    + discriminate.
Qed.

Lemma assign_loop_last (srt : forall A : Type, (A -> key) -> list A -> list A)
    (evs : list (nat * Event.t)) :
  forall st st',
    assign_loop srt evs st = Ok st' ->
    last (st :: assign_trace srt evs st) = Some st'.
Proof.
  induction evs as [|[ei event] rest IH]; intros st st' E; simpl in *.
  - inversion E; subst. reflexivity.
  - unfold fill_event in *.
    destruct (fill_slots srt (Z.to_nat (Event.capacity event)) ei event
                (mkloop st ∅ ∅)) as [s1|e] eqn:E1; simpl in *; [|discriminate].
    apply fill_slots_last in E1. simpl in E1.
    specialize (IH _ _ E).
    rewrite app_comm_cons, last_app.
    rewrite last_cons in IH.
    destruct (last (assign_trace srt rest (ls_store s1))) as [y|].
    + exact IH.
    + rewrite E1. exact IH.
Qed.

(** * The claims of the specification *)

(** C1.  In every slot of every event, the key the sort computes for an
    eligible participant (a member of the pool, still as the store has it)
    is the 5-tuple of the specification: school mismatch, day mismatch,
    distance or [0.0], the current count of the participant's country read
    without incrementing it, and [|M - F|] with this one candidate added to
    a copy of the gender counters. *)
Theorem ranking_key_matches_spec (st : store) (event : Event.t)
    (cc gc : gmap string Z) (i : nat) (p : Participant.t) :
  (i, p) ∈ candidates st event ->
  participants st !! i = Some p
  /\ eligible st event p = true
  /\ slot_key event cc gc (i, p)
     = (schoolMismatch p event, dayMismatch p event, distanceScore p,
        countryScore cc p, genderScore gc p).
Proof.
  intros Hin. apply candidates_elem in Hin as [Hp He].
  split; [exact Hp|]. split; [exact He|].
  unfold slot_key. simpl. apply candidate_key_spec.
Qed.

Lemma ranking_key_matches_spec_witness :
  slot_key opening ∅ ∅ (0%nat, ana)
  = (schoolMismatch ana opening, dayMismatch ana opening, distanceScore ana,
     countryScore ∅ ana, genderScore ∅ ana).
Proof.
  refine (proj2 (proj2 (ranking_key_matches_spec sample_store opening ∅ ∅
                          0%nat ana _))).
  apply candidates_elem. split; reflexivity.
Defined.

(** C3.  After a run on a fresh store, any two assignments of a
    participant (two different positions of its list) are events at least
    30 days apart. *)
Theorem spacing_invariant (st st' : store) (pi : nat) (p : Participant.t)
    (j k e1 e2 : nat) :
  fresh st = true ->
  assign_events st = Ok st' ->
  participants st' !! pi = Some p ->
  j <> k ->
  Participant.assignments p !! j = Some e1 ->
  Participant.assignments p !! k = Some e2 ->
  exists ev1 ev2,
    events st' !! e1 = Some ev1 /\ events st' !! e2 = Some ev2
    /\ 30 <= days_between (Event.date ev1) (Event.date ev2).
Proof.
  intros Hf Hrun Hp Hjk H1 H2.
  destruct (assign_events_run st Hf) as (st2 & E & Hc & _).
  rewrite Hrun in E. inversion E; subst st2.
  pose proof (assignments_of_lookup st' pi p Hp) as Ha.
  assert (Hv : forall e, e ∈ Participant.assignments p ->
                         exists ev, events st' !! e = Some ev).
  { intros e He. rewrite <- Ha in He. apply (c_forward st' Hc) in He.
    unfold assigned in He. destruct (events st' !! e) as [ev|]; [eauto|].
    apply elem_of_nil in He. contradiction. }
  destruct (Hv e1 (list_elem_of_lookup_2 _ _ _ H1)) as [ev1 Hev1].
  destruct (Hv e2 (list_elem_of_lookup_2 _ _ _ H2)) as [ev2 Hev2].
  exists ev1, ev2. split; [exact Hev1|]. split; [exact Hev2|].
  eapply (c_spacing st' Hc pi j k); eauto; rewrite Ha; assumption.
Qed.

Lemma spacing_invariant_witness :
  exists ev1 ev2,
    events sample_result !! 0%nat = Some ev1
    /\ events sample_result !! 2%nat = Some ev2
    /\ 30 <= days_between (Event.date ev1) (Event.date ev2).
Proof.
  apply (spacing_invariant sample_store sample_result 0%nat
           (participant_append 2 (participant_append 0 ana)) 0%nat 1%nat);
    [reflexivity | exact sample_run | vm_compute; reflexivity | lia
    | reflexivity | reflexivity].
Defined.

(** C4.  On a fresh store the run returns, every participant of the
    result has at most two assignments, and so has every participant of
    every store the run goes through right after a commit; the last of
    these stores is the result. *)
Theorem assignment_cap (st : store) :
  fresh st = true ->
  exists st',
    assign_events st = Ok st'
    /\ Forall (fun p => (length (Participant.assignments p) <= 2)%nat)
              (participants st')
    /\ Forall (fun x => Forall (fun p => (length (Participant.assignments p) <= 2)%nat)
                               (participants x))
              (commit_points py_sort st)
    /\ last (st :: commit_points py_sort st) = Some st'.
Proof.
  intros Hf. destruct (assign_events_run st Hf) as (st' & E & Hc & _ & Ht).
  assert (Hcap : forall x, consistent x ->
            Forall (fun p => (length (Participant.assignments p) <= 2)%nat)
                   (participants x)).
  { intros x Hx. apply Forall_forall. intros p Hp.
    apply list_elem_of_lookup_1 in Hp as [i Hi].
    rewrite <- (assignments_of_lookup x i p Hi). apply (c_cap x Hx). }
  exists st'. split; [exact E|]. split; [apply Hcap, Hc|]. split.
  - eapply Forall_impl; [exact Ht|]. exact Hcap.
  - apply assign_loop_last, E.
Qed.

Lemma assignment_cap_witness :
  exists st',
    assign_events sample_store = Ok st'
    /\ Forall (fun p => (length (Participant.assignments p) <= 2)%nat)
              (participants st')
    /\ Forall (fun x => Forall (fun p => (length (Participant.assignments p) <= 2)%nat)
                               (participants x))
              (commit_points py_sort sample_store)
    /\ last (sample_store :: commit_points py_sort sample_store) = Some st'.
Proof. apply (assignment_cap sample_store). reflexivity. Defined.

(** C6.  After a run on a fresh store, a participant is in an event's
    list exactly when the event is in the participant's list. *)
Theorem assignment_symmetry (st st' : store) (pi : nat) (p : Participant.t)
    (ei : nat) (e : Event.t) :
  fresh st = true ->
  assign_events st = Ok st' ->
  participants st' !! pi = Some p ->
  events st' !! ei = Some e ->
  pi ∈ Event.assignments e <-> ei ∈ Participant.assignments p.
Proof.
  intros Hf Hrun Hp He.
  destruct (assign_events_run st Hf) as (st2 & E & Hc & _).
  rewrite Hrun in E. inversion E; subst st2.
  rewrite <- (assignments_of_lookup st' pi p Hp).
  rewrite <- (assigned_lookup st' ei e He).
  split; [apply (c_backward st' Hc)|apply (c_forward st' Hc)].
Qed.

Lemma assignment_symmetry_witness :
  1%nat ∈ Event.assignments (event_append 0 (event_append 1 closing))
  <-> 2%nat ∈ Participant.assignments
               (participant_append 2 (participant_append 0 ben)).
Proof.
  apply (assignment_symmetry sample_store sample_result 1%nat _ 2%nat);
    [reflexivity | exact sample_run | vm_compute; reflexivity
    | vm_compute; reflexivity].
Defined.

(** C7.  After a run on a fresh store, no event lists a participant
    twice. *)
Theorem no_duplicate_slot (st st' : store) (ei : nat) (e : Event.t) :
  fresh st = true ->
  assign_events st = Ok st' ->
  events st' !! ei = Some e ->
  NoDup (Event.assignments e).
Proof.
  intros Hf Hrun He.
  destruct (assign_events_run st Hf) as (st2 & E & Hc & _).
  rewrite Hrun in E. inversion E; subst st2.
  rewrite <- (assigned_lookup st' ei e He). apply (c_nodup st' Hc).
Qed.

Lemma no_duplicate_slot_witness :
  NoDup (Event.assignments (event_append 1 (event_append 0 opening))).
Proof.
  apply (no_duplicate_slot sample_store sample_result 0%nat);
    [reflexivity | exact sample_run | vm_compute; reflexivity].
Defined.

(** The run seen from an event of the result: its list has as many
    entries as its capacity and the pool at the start of its turn allow. *)
Lemma run_event_view (st st' : store) (ei : nat) (e : Event.t) :
  fresh st = true ->
  assign_events st = Ok st' ->
  events st' !! ei = Some e ->
  exists e0 pre post st1,
    enumerate (events st) = pre ++ (ei, e0) :: post
    /\ event_static e0 = event_static e
    /\ assign_loop py_sort pre st = Ok st1
    /\ length (Event.assignments e)
       = Nat.min (Z.to_nat (Event.capacity e0)) (length (candidates st1 e0)).
Proof.
  intros Hf Hrun He.
  destruct (assign_events_run st Hf) as (st2 & E & _ & Hs & _).
  rewrite Hrun in E. inversion E; subst st2. clear E.
  pose proof (same_static_event st st' ei Hs) as Hev. rewrite He in Hev.
  destruct (events st !! ei) as [e0|] eqn:E0; [|discriminate].
  simpl in Hev.
  assert (Hstat : event_static e0 = event_static e) by congruence.
  destruct (list_elem_of_split _ _ (proj2 (enumerate_lookup _ _ _) E0))
    as (pre & post & Hsplit).
  destruct (assign_events_event py_sort py_sort_perm st pre post ei e0 Hsplit)
    as (st1 & st2 & st3 & E1 & E2 & E3 & E4 & Ha1 & Hlen & Ha3 & _).
  unfold assign_events in Hrun. rewrite Hrun in E4. inversion E4; subst st3.
  exists e0, pre, post, st1.
  split; [exact Hsplit|]. split; [exact Hstat|]. split; [exact E1|].
  rewrite <- (assigned_lookup st' ei e He), Ha3, Hlen, Ha1.
  rewrite (fresh_assigned st ei Hf). reflexivity.
Qed.

(** C5.  After a run on a fresh store, an event of non-negative capacity
    lists at most [capacity] participants. *)
Theorem capacity_bound (st st' : store) (ei : nat) (e : Event.t) :
  fresh st = true ->
  assign_events st = Ok st' ->
  events st' !! ei = Some e ->
  0 <= Event.capacity e ->
  Z.of_nat (length (Event.assignments e)) <= Event.capacity e.
Proof.
  intros Hf Hrun He Hcap.
  destruct (run_event_view st st' ei e Hf Hrun He)
    as (e0 & pre & post & st1 & _ & Hstat & _ & Hlen).
  assert (Hc : Event.capacity e0 = Event.capacity e)
    by (unfold event_static in Hstat; congruence).
  rewrite Hlen, Hc. lia.
Qed.

Lemma capacity_bound_witness :
  Z.of_nat (length (Event.assignments (event_append 2 workshop)))
  <= Event.capacity (event_append 2 workshop).
Proof.
  apply (capacity_bound sample_store sample_result 1%nat);
    [reflexivity | exact sample_run | vm_compute; reflexivity
    | vm_compute; discriminate].
Defined.

(** For any capacity, negative ones included, the list is no longer than
    [max 0 capacity]. *)
Lemma capacity_bound_max (st st' : store) (ei : nat) (e : Event.t) :
  fresh st = true ->
  assign_events st = Ok st' ->
  events st' !! ei = Some e ->
  Z.of_nat (length (Event.assignments e)) <= Z.max 0 (Event.capacity e).
Proof.
  intros Hf Hrun He.
  destruct (run_event_view st st' ei e Hf Hrun He)
    as (e0 & pre & post & st1 & _ & Hstat & _ & Hlen).
  assert (Hc : Event.capacity e0 = Event.capacity e)
    by (unfold event_static in Hstat; congruence).
  rewrite Hlen, Hc. lia.
Qed.

Lemma fill_slots_break (srt : forall A : Type, (A -> key) -> list A -> list A)
    (n ei : nat) (event : Event.t) (s : loop_state) :
  candidates (ls_store s) event = [] -> fill_slots srt n ei event s = Ok s.
Proof.
  intros Hc. destruct n as [|n]; simpl; [reflexivity|].
  unfold slot. rewrite Hc. reflexivity.
Qed.

(** C8.  Seen from any event of a fresh store: the events before it are
    processed, its own turn returns without an error, the events after it
    are processed from the store it leaves, and the run returns.  A pass
    over its slots that finds the pool empty stops and changes nothing.
    The event ends up with [min capacity k] participants, [k] being the
    number of participants eligible when its turn starts; so with
    [k < capacity] exactly [k] are assigned. *)
Theorem benign_underfill (st : store) (pre post : list (nat * Event.t))
    (ei : nat) (event : Event.t) :
  fresh st = true ->
  enumerate (events st) = pre ++ (ei, event) :: post ->
  exists st1 st2 st',
    assign_loop py_sort pre st = Ok st1
    /\ fill_event py_sort ei event st1 = Ok st2
    /\ assign_loop py_sort post st2 = Ok st'
    /\ assign_events st = Ok st'
    /\ (forall n s, candidates (ls_store s) event = [] ->
          fill_slots py_sort n ei event s = Ok s)
    /\ length (assigned st' ei)
       = Nat.min (Z.to_nat (Event.capacity event))
                 (length (candidates st1 event))
    /\ (Z.of_nat (length (candidates st1 event)) < Event.capacity event ->
        length (assigned st' ei) = length (candidates st1 event)).
Proof.
  intros Hf Hsplit.
  destruct (assign_events_event py_sort py_sort_perm st pre post ei event Hsplit)
    as (st1 & st2 & st' & E1 & E2 & E3 & E4 & Ha1 & Hlen & Ha3 & _).
  assert (Hcount : length (assigned st' ei)
                   = Nat.min (Z.to_nat (Event.capacity event))
                             (length (candidates st1 event))).
  { rewrite Ha3, Hlen, Ha1, (fresh_assigned st ei Hf). reflexivity. }
  exists st1, st2, st'. repeat split; auto.
  - intros n s. apply fill_slots_break.
  - intros Hk. rewrite Hcount. lia.
Qed.

Lemma benign_underfill_witness :
  exists st1 st2 st',
    assign_loop py_sort [(0%nat, opening)] sample_store = Ok st1
    /\ fill_event py_sort 1%nat workshop st1 = Ok st2
    /\ assign_loop py_sort [(2%nat, closing)] st2 = Ok st'
    /\ assign_events sample_store = Ok st'
    /\ (forall n s, candidates (ls_store s) workshop = [] ->
          fill_slots py_sort n 1%nat workshop s = Ok s)
    /\ length (assigned st' 1%nat)
       = Nat.min (Z.to_nat (Event.capacity workshop))
                 (length (candidates st1 workshop))
    /\ (Z.of_nat (length (candidates st1 workshop)) < Event.capacity workshop ->
        length (assigned st' 1%nat) = length (candidates st1 workshop)).
Proof.
  apply (benign_underfill sample_store [(0%nat, opening)] [(2%nat, closing)]
           1%nat workshop); reflexivity.
Defined.

(** ** The choice made in a slot *)

Lemma enumerate_from_sorted {X : Type} (P : nat * X -> bool) (l : list X) :
  forall k,
    StronglySorted (fun a b : nat * X => (fst a < fst b)%nat)
      (List.filter P (imap (fun n => pair (k + n)%nat) l)).
Proof.
  induction l as [|x l IH]; intros k; [constructor|].
  cbn [imap].
  assert (Htail : imap ((fun n => pair (k + n)%nat) ∘ S) l
                  = imap (fun n => pair (S k + n)%nat) l).
  { apply imap_ext. intros i y _. simpl. f_equal. lia. }
  rewrite Htail. cbn [List.filter].
  destruct (P (k + 0, x)%nat); [|apply IH].
  constructor; [apply IH|].
  apply Forall_forall. intros [j y] Hin.
  apply list_elem_of_In, filter_In in Hin as [Hin _].
  apply list_elem_of_In, elem_of_lookup_imap in Hin as (i & z & E & _).
  inversion E; subst. simpl. lia.
Qed.

(** The pool lists its members by increasing position in the input. *)
Lemma candidates_sorted (st : store) (event : Event.t) :
  StronglySorted (fun a b : nat * Participant.t => (fst a < fst b)%nat)
    (candidates st event).
Proof. apply (enumerate_from_sorted _ _ 0%nat). Qed.

Lemma sorted_before {X : Type} (R : X -> X -> Prop) (pre post : list X) (x : X) :
  StronglySorted R (pre ++ x :: post) -> Forall (fun q => R q x) pre.
Proof.
  induction pre as [|y pre IH]; intros H; [constructor|].
  simpl in H. inversion H as [|? ? Hs Hy]; subst.
  constructor; [|apply IH, Hs].
  rewrite Forall_forall in Hy. apply Hy. set_solver.
Qed.

Lemma store_ordered_lookup (st : store) (i : nat) (p : Participant.t) :
  store_ordered st = true -> participants st !! i = Some p ->
  participant_ordered p = true.
Proof.
  unfold store_ordered. rewrite forallb_forall. intros H Hp.
  apply H, list_elem_of_In. eapply list_elem_of_lookup_2, Hp.
Qed.

Lemma candidate_key_ordered (p : Participant.t) (event : Event.t)
    (cc gc : gmap string Z) :
  participant_ordered p = true -> key_ordered (candidate_key p event cc gc) = true.
Proof.
  unfold participant_ordered, candidate_key, key_ordered.
  destruct (Participant.distance p); auto.
Qed.

Lemma candidates_ordered (st : store) (event : Event.t) (cc gc : gmap string Z) :
  store_ordered st = true ->
  Forall (fun ip => key_ordered (slot_key event cc gc ip) = true)
         (candidates st event).
Proof.
  intros H. apply Forall_forall. intros [i p] Hin.
  apply candidates_elem in Hin as [Hp _].
  apply candidate_key_ordered. eapply store_ordered_lookup; eauto.
Qed.

(** One iteration, read off the head of the sorted pool. *)
Lemma slot_head (srt : forall A : Type, (A -> key) -> list A -> list A)
    (ei : nat) (event : Event.t) (s : loop_state) :
  slot srt ei event s
  = match candidates (ls_store s) event with
    | [] => Ok None
    | _ :: _ =>
      match head (srt _ (slot_key event (country_counts s) (gender_counts s))
                      (candidates (ls_store s) event)) with
      | None => Raise IndexError
      | Some ip =>
        Ok (Some (mkloop (commit (ls_store s) ei (fst ip))
                    (counts_incr_if (country_counts s)
                       (Participant.country (snd ip)))
                    (counts_incr_if (gender_counts s)
                       (Participant.gender (snd ip)))))
      end
    end.
Proof.
  unfold slot. destruct (candidates (ls_store s) event) as [|c0 cs]; [reflexivity|].
  destruct (srt _ _ (c0 :: cs)) as [|[ci chosen] t]; reflexivity.
Qed.

(** C2.  In a slot whose pool is not empty (no distance being NaN), the
    engine commits a candidate [chosen] such that no candidate has a key
    less than its key, and every candidate listed before it, which are
    those earlier in the input list, has a strictly greater key: among
    candidates of minimal key the earliest of the input wins. *)
Theorem slot_commits_first_minimum (ei : nat) (event : Event.t) (s : loop_state) :
  store_ordered (ls_store s) = true ->
  candidates (ls_store s) event <> [] ->
  let K := slot_key event (country_counts s) (gender_counts s) in
  exists pre ci chosen post,
    candidates (ls_store s) event = pre ++ (ci, chosen) :: post
    /\ Forall (fun q => key_lt (K q) (K (ci, chosen)) = false)
              (candidates (ls_store s) event)
    /\ Forall (fun q => (fst q < ci)%nat /\ key_lt (K (ci, chosen)) (K q) = true)
              pre
    /\ slot py_sort ei event s
       = Ok (Some (mkloop (commit (ls_store s) ei ci)
                     (counts_incr_if (country_counts s)
                        (Participant.country chosen))
                     (counts_incr_if (gender_counts s)
                        (Participant.gender chosen)))).
Proof.
  intros Hord Hne K.
  pose proof (candidates_ordered (ls_store s) event (country_counts s)
                (gender_counts s) Hord) as Hk.
  fold K in Hk.
  destruct (first_min K (candidates (ls_store s) event)) as [[ci chosen]|] eqn:Emin;
    [|apply first_min_None in Emin; contradiction].
  destruct (first_min_spec K _ _ Hk Emin) as (pre & post & El & Hpre & Hpost).
  exists pre, ci, chosen, post. split; [exact El|]. split; [|split].
  - rewrite El. apply Forall_app. split.
    + rewrite El in Hk. apply Forall_app in Hk as [Hk1 Hk2].
      inversion Hk2 as [|? ? Hc _]; subst.
      rewrite Forall_forall in Hpre, Hk1 |- *. intros q Hq.
      apply key_lt_asym; auto.
    + constructor; [apply key_lt_irrefl|exact Hpost].
  - pose proof (candidates_sorted (ls_store s) event) as Hs.
    rewrite El in Hs. apply sorted_before in Hs.
    rewrite Forall_forall in Hs, Hpre |- *. intros q Hq. split; [|auto].
    apply (Hs q Hq).
  - rewrite slot_head. unfold py_sort. fold K. rewrite head_sort_by, Emin.
    rewrite El. destruct pre; reflexivity.
Qed.

Lemma slot_commits_first_minimum_witness :
  let K := slot_key closing ∅ ∅ in
  exists pre ci chosen post,
    candidates sample_before_closing closing = pre ++ (ci, chosen) :: post
    /\ Forall (fun q => key_lt (K q) (K (ci, chosen)) = false)
              (candidates sample_before_closing closing)
    /\ Forall (fun q => (fst q < ci)%nat /\ key_lt (K (ci, chosen)) (K q) = true)
              pre
    /\ slot py_sort 2%nat closing (mkloop sample_before_closing ∅ ∅)
       = Ok (Some (mkloop (commit sample_before_closing 2%nat ci)
                     (counts_incr_if ∅ (Participant.country chosen))
                     (counts_incr_if ∅ (Participant.gender chosen)))).
Proof.
  apply (slot_commits_first_minimum 2%nat closing
           (mkloop sample_before_closing ∅ ∅));
    [reflexivity | discriminate].
Defined.

(** ** Any stable sort gives the same run *)

Lemma store_ordered_commit (st : store) (ei ci : nat) :
  store_ordered st = true -> store_ordered (commit st ei ci) = true.
Proof.
  unfold store_ordered. rewrite !forallb_forall. intros H p Hp.
  apply list_elem_of_In, list_elem_of_lookup_1 in Hp as [i Hi].
  simpl in Hi. destruct (decide (ci = i)) as [->|Hne].
  - rewrite list_lookup_alter_eq in Hi.
    destruct (participants st !! i) as [q|] eqn:Eq; [|discriminate].
    simpl in Hi. inversion Hi; subst p.
    change (participant_ordered q = true).
    apply H, list_elem_of_In. eapply list_elem_of_lookup_2, Eq.
  - rewrite list_lookup_alter_ne in Hi by exact Hne.
    apply H, list_elem_of_In. eapply list_elem_of_lookup_2, Hi.
Qed.

Section AnyStableSort.

Variable srt : forall A : Type, (A -> key) -> list A -> list A.
Hypothesis srt_contract : sort_contract srt.

Lemma slot_any_sort (ei : nat) (event : Event.t) (s : loop_state) :
  store_ordered (ls_store s) = true ->
  slot srt ei event s = slot py_sort ei event s.
Proof.
  intros Hord. rewrite !slot_head.
  pose proof (candidates_ordered (ls_store s) event (country_counts s)
                (gender_counts s) Hord) as Hk.
  rewrite (contract_head _ srt _ srt_contract Hk).
  rewrite (contract_head _ py_sort _ py_sort_contract Hk).
  reflexivity.
Qed.

Lemma slot_keeps_order (ei : nat) (event : Event.t) (s s' : loop_state) :
  store_ordered (ls_store s) = true ->
  slot py_sort ei event s = Ok (Some s') ->
  store_ordered (ls_store s') = true.
Proof.
  intros Hord E. rewrite slot_head in E.
  destruct (candidates (ls_store s) event); [discriminate|].
  destruct (head _) as [ip|]; [|discriminate].
  inversion E; subst s'. simpl. apply store_ordered_commit, Hord.
Qed.

Lemma fill_slots_any_sort (ei : nat) (event : Event.t) (n : nat) :
  forall s,
    store_ordered (ls_store s) = true ->
    fill_slots srt n ei event s = fill_slots py_sort n ei event s
    /\ forall s', fill_slots py_sort n ei event s = Ok s' ->
                  store_ordered (ls_store s') = true.
Proof.
  induction n as [|n IH]; intros s Hord; simpl.
  - split; [reflexivity|]. intros s' E. inversion E; subst. exact Hord.
  - rewrite (slot_any_sort ei event s Hord).
    destruct (slot py_sort ei event s) as [[s1|]|e] eqn:E; simpl.
    + apply IH. eapply slot_keeps_order; eauto.
    + split; [reflexivity|]. intros s' E'. inversion E'; subst. exact Hord.
    + split; [reflexivity|]. discriminate.
Qed.

Lemma assign_loop_any_sort (evs : list (nat * Event.t)) :
  forall st,
    store_ordered st = true ->
    assign_loop srt evs st = assign_loop py_sort evs st.
Proof.
  induction evs as [|[ei event] rest IH]; intros st Hord; simpl;
    [reflexivity|].
  unfold fill_event.
  destruct (fill_slots_any_sort ei event (Z.to_nat (Event.capacity event))
              (mkloop st ∅ ∅) Hord) as [E Hord'].
  rewrite E.
  destruct (fill_slots py_sort _ ei event (mkloop st ∅ ∅)) as [s1|e];
    simpl; [|reflexivity].
  apply IH, Hord'. reflexivity.
Qed.

End AnyStableSort.

Section SecondSort.

Context {A : Type} (f : A -> key).

Local Abbreviation ordered := (item_ordered f).
Local Abbreviation asc := (ascending f).
Local Abbreviation ins := (fun acc x => insert_right f x acc).

Lemma insert_right_perm (x : A) (l : list A) :
  Permutation (x :: l) (insert_right f x l).
Proof.
  induction l as [|y r IH]; simpl; [reflexivity|].
  destruct (key_lt (f x) (f y)); [reflexivity|].
  rewrite perm_swap. apply perm_skip, IH.
Qed.

Lemma fold_insert_perm (l : list A) :
  forall acc, Permutation (acc ++ l) (fold_left ins l acc).
Proof.
  induction l as [|x l IH]; intros acc; simpl.
  - rewrite app_nil_r. reflexivity.
  - rewrite <- IH.
    rewrite <- insert_right_perm.
    symmetry. apply Permutation_middle.
Qed.

Lemma insert_right_sorted (x : A) (s : list A) :
  ordered x -> Forall ordered s ->
  StronglySorted asc s -> StronglySorted asc (insert_right f x s).
Proof.
  intros Hx Hs Hsorted. induction Hsorted as [|y r Hr IH Hy]; simpl.
  - repeat constructor.
  - inversion Hs as [|? ? Hoy Hor]; subst.
    destruct (key_lt (f x) (f y)) eqn:Elt.
    + constructor; [constructor; assumption|].
      constructor; [apply key_lt_asym; assumption|].
      rewrite Forall_forall in Hy, Hor |- *. intros z Hz.
      unfold ascending. apply (key_lt_negtrans _ (f y)); auto.
      * apply Hor, Hz.
      * apply Hy, Hz.
      * apply key_lt_asym; assumption.
    + constructor; [apply IH, Hor|].
      eapply Permutation_Forall; [apply insert_right_perm|].
      constructor; [exact Elt|exact Hy].
Qed.

Lemma fold_insert_sorted (l : list A) :
  forall acc,
    Forall ordered acc -> Forall ordered l -> StronglySorted asc acc ->
    StronglySorted asc (fold_left ins l acc).
Proof.
  induction l as [|x l IH]; intros acc Hacc Hl Hs; simpl; [exact Hs|].
  inversion Hl; subst. apply IH; auto.
  - eapply Permutation_Forall; [apply insert_right_perm|]. constructor; auto.
  - apply insert_right_sorted; auto.
Qed.

Lemma insert_right_stable (k : key) (x : A) (s : list A) :
  key_ordered k = true -> ordered x -> Forall ordered s ->
  StronglySorted asc s ->
  List.filter (fun y => key_equiv k (f y)) (insert_right f x s)
  = List.filter (fun y => key_equiv k (f y)) (s ++ [x]).
Proof.
  intros Hk Hx Hs Hsorted. induction Hsorted as [|y r Hr IH Hy];
    [reflexivity|].
  inversion Hs as [|? ? Hoy Hor]; subst.
  cbn [insert_right]. destruct (key_lt (f x) (f y)) eqn:Elt.
  - rewrite List.filter_app. cbn [List.filter].
    destruct (key_equiv k (f x)) eqn:Ex; [|rewrite app_nil_r; reflexivity].
    assert (Hnone : List.filter (fun z => key_equiv k (f z)) (y :: r) = []).
    { apply filter_none. unfold key_equiv in Ex.
      apply andb_true_iff in Ex as [_ Ex]. apply negb_true_iff in Ex.
      assert (Hxz : forall z, ordered z -> key_lt (f x) (f z) = true ->
                              key_equiv k (f z) = false).
      { intros z Hz Hlt. unfold key_equiv.
        destruct (key_lt k (f z)) eqn:E1; [reflexivity|].
        rewrite (key_lt_negtrans (f x) k (f z)) in Hlt by assumption.
        discriminate. }
      constructor; [apply Hxz; assumption|].
      rewrite Forall_forall in Hy, Hor |- *. intros z Hz.
      apply Hxz; [apply Hor, Hz|].
      destruct (key_lt (f x) (f z)) eqn:E2; [reflexivity|].
      assert (Hoz : ordered z) by apply Hor, Hz.
      assert (Hzy : key_lt (f z) (f y) = false) by apply Hy, Hz.
      rewrite (key_lt_negtrans (f x) (f z) (f y)) in Elt by assumption.
      discriminate. }
    cbn [List.filter] in Hnone. rewrite Hnone. reflexivity.
  - cbn [List.filter app]. rewrite (IH Hor). reflexivity.
Qed.

Lemma fold_insert_stable (k : key) (l : list A) :
  key_ordered k = true ->
  forall acc,
    Forall ordered acc -> Forall ordered l -> StronglySorted asc acc ->
    List.filter (fun y => key_equiv k (f y)) (fold_left ins l acc)
    = List.filter (fun y => key_equiv k (f y)) (acc ++ l).
Proof.
  intros Hk. induction l as [|x l IH]; intros acc Hacc Hl Hs; simpl.
  - rewrite app_nil_r. reflexivity.
  - inversion Hl; subst. rewrite IH; auto.
    + rewrite !List.filter_app, insert_right_stable by auto.
      rewrite List.filter_app. cbn [List.filter].
      rewrite <- app_assoc. destruct (key_equiv k (f x)); reflexivity.
    + eapply Permutation_Forall; [apply insert_right_perm|]. constructor; auto.
    + apply insert_right_sorted; auto.
Qed.

End SecondSort.

Lemma bisect_sort_contract : sort_contract bisect_sort.
Proof.
  intros A f l. unfold bisect_sort, sort_left. split; [|intros Hl; split].
  - apply (fold_insert_perm f l []).
  - apply fold_insert_sorted; auto; constructor.
  - intros k Hk. rewrite fold_insert_stable; auto; constructor.
Qed.

(** C9.  The outcome of a run is a function of the input alone: two runs
    on the same store (no distance being NaN) return the same store, with
    the same lists on every event and every participant, whichever stable
    sorts the two runs use. *)
Theorem assignment_deterministic
    (srt1 srt2 : forall A : Type, (A -> key) -> list A -> list A) (st : store) :
  sort_contract srt1 -> sort_contract srt2 ->
  store_ordered st = true ->
  exists st',
    assign_events_with srt1 st = Ok st' /\ assign_events_with srt2 st = Ok st'.
Proof.
  intros H1 H2 Hord.
  destruct (assign_loop_invariant py_sort py_sort_perm (fun _ => True)
              (enumerate (events st)) (fun _ _ _ _ _ _ _ _ => I) st I)
    as (st' & E & _).
  exists st'. unfold assign_events_with.
  rewrite (assign_loop_any_sort srt1 H1 _ st Hord).
  rewrite (assign_loop_any_sort srt2 H2 _ st Hord).
  split; exact E.
Qed.

Lemma assignment_deterministic_witness :
  exists st',
    assign_events_with py_sort sample_store = Ok st'
    /\ assign_events_with bisect_sort sample_store = Ok st'.
Proof.
  apply (assignment_deterministic py_sort bisect_sort sample_store);
    [exact py_sort_contract | exact bisect_sort_contract | reflexivity].
Defined.

(** ** [filter_participants] *)

Lemma filter_loop_spec (gender country day : option string)
    (school : option bool) (max_distance : option spec_float)
    (ps : list Participant.t) :
  forall acc,
    filter_loop gender country day school max_distance ps acc
    = acc ++ List.filter (retained gender country day school max_distance) ps.
Proof.
  induction ps as [|p rest IH]; intros acc; simpl.
  - rewrite app_nil_r. reflexivity.
  - unfold retained at 1.
    destruct (excluded_by_gender gender p); simpl; [apply IH|].
    destruct (excluded_by_country country p); simpl; [apply IH|].
    destruct (excluded_by_day day p); simpl; [apply IH|].
    destruct (excluded_by_school school p); simpl; [apply IH|].
    destruct (excluded_by_distance max_distance p); simpl; [apply IH|].
    rewrite IH, <- app_assoc. reflexivity.
Qed.

Lemma filter_participants_spec (ps : list Participant.t)
    (gender country day : option string) (school : option bool)
    (max_distance : option spec_float) :
  filter_participants ps gender country day school max_distance
  = List.filter (retained gender country (normalise_day day) school max_distance) ps.
Proof. unfold filter_participants. apply filter_loop_spec. Qed.

Lemma filter_sublist {X : Type} (P : X -> bool) (l : list X) :
  sublist (List.filter P l) l.
Proof.
  induction l as [|x l IH]; simpl; [constructor|].
  destruct (P x); [apply sublist_skip|apply sublist_cons]; exact IH.
Qed.

Lemma empty_days_not_excluded (day : option string) (p : Participant.t) :
  Participant.preferred_days p = ∅ -> excluded_by_day day p = false.
Proof.
  intros H. unfold excluded_by_day. destruct day as [d|]; [|reflexivity].
  rewrite H. rewrite (bool_decide_eq_false_2 (∅ ≠ ∅)) by (intros Hn; apply Hn; reflexivity).
  rewrite andb_false_r. reflexivity.
Qed.

(** C10.  A participant without preferred days is never excluded by the
    day guard, whatever day is asked for: it is in the result exactly when
    it is in the result of the same call without a day.  The result lists
    the retained participants in the order of the input. *)
Theorem empty_days_pass_day_filter (ps : list Participant.t)
    (gender country : option string) (day : string) (school : option bool)
    (max_distance : option spec_float) :
  (forall p : Participant.t,
      Participant.preferred_days p = ∅ ->
      excluded_by_day (normalise_day (Some day)) p = false
      /\ (p ∈ filter_participants ps gender country (Some day) school max_distance
          <-> p ∈ filter_participants ps gender country None school max_distance))
  /\ filter_participants ps gender country (Some day) school max_distance
     = List.filter
         (retained gender country (normalise_day (Some day)) school max_distance)
         ps
  /\ sublist (filter_participants ps gender country (Some day) school max_distance)
             ps.
Proof.
  split; [|split].
  - intros p Hempty. split; [apply empty_days_not_excluded, Hempty|].
    rewrite !filter_participants_spec, !list_elem_of_In, !filter_In.
    unfold retained.
    rewrite !(empty_days_not_excluded _ p Hempty). reflexivity.
  - apply filter_participants_spec.
  - rewrite filter_participants_spec. apply filter_sublist.
Qed.

Lemma empty_days_pass_day_filter_witness :
  excluded_by_day (normalise_day (Some "Friday"%string)) ben = false
  /\ (ben ∈ filter_participants sample_participants None None
              (Some "Friday"%string) None None
      <-> ben ∈ filter_participants sample_participants None None None None None).
Proof.
  apply (proj1 (empty_days_pass_day_filter sample_participants None None
                  "Friday" None None) ben).
  reflexivity.
Defined.

(** On the sample roster a Friday keeps the participant without preferred
    days and drops the two who prefer other days. *)
Example filter_friday :
  Participant.name <$> filter_participants sample_participants None None
                         (Some "Friday"%string) None None
  = ["Ben"%string].
Proof. vm_compute. reflexivity. Qed.

(** * Beyond the claims: the rest of the module *)

(** ** Characters *)





Lemma ascii_lower_upper (c : ascii) : ascii_lower (ascii_upper c) = ascii_lower c.
Proof. destruct c as [[] [] [] [] [] [] [] []]; reflexivity. Qed.

Lemma ascii_upper_lower (c : ascii) : ascii_upper (ascii_lower c) = ascii_upper c.
Proof. destruct c as [[] [] [] [] [] [] [] []]; reflexivity. Qed.

(** ** [strip] *)


Lemma str_map_comp (f g h : ascii -> ascii) (s : string) :
  (forall c, f (g c) = h c) -> str_map f (str_map g s) = str_map h s.
Proof. intros Hf. induction s as [|c r IH]; simpl; [reflexivity|]. rewrite Hf, IH. reflexivity. Qed.













Lemma lstrip_all_space (w : string) : all_space w = true -> lstrip w = EmptyString.
Proof.
  induction w as [|c r IH]; simpl; [reflexivity|].
  intros H. apply andb_true_iff in H as [Hc Hr]. rewrite Hc. auto.
Qed.





Lemma str_truthy_true (s : string) : str_truthy s = true <-> s <> EmptyString.
Proof.
  unfold str_truthy. rewrite negb_true_iff. split.
  - intros H ->. discriminate.
  - intros H. destruct s; [contradiction|reflexivity].
Qed.



Lemma lower_upper (s : string) : lower (upper s) = lower s.
Proof. apply str_map_comp, ascii_lower_upper. Qed.

Lemma upper_lower (s : string) : upper (lower s) = upper s.
Proof. apply str_map_comp, ascii_upper_lower. Qed.

(** ** [parse_bool] *)



(** ** [split] and [parse_days] *)

Lemma split_on_cons (sep : ascii) (s : string) :
  exists h t, split_on sep s = h :: t.
Proof.
  induction s as [|c r (h & t & E)]; simpl; [eauto|].
  destruct (Ascii.eqb c sep); [eauto|]. rewrite E. eauto.
Qed.

Lemma split_on_app (sep : ascii) (a b : string) :
  split_on sep (a ++ String sep b) = split_on sep a ++ split_on sep b.
Proof.
  induction a as [|c r IH]; simpl.
  - rewrite Ascii.eqb_refl. reflexivity.
  - rewrite IH. destruct (Ascii.eqb c sep); [reflexivity|].
    destruct (split_on_cons sep r) as (h & t & E). rewrite E. reflexivity.
Qed.


Lemma add_days_union (parts : list string) (acc : gset string) :
  fold_left add_day parts acc = acc ∪ fold_left add_day parts ∅.
Proof.
  revert acc. induction parts as [|p rest IH]; intros acc; simpl.
  - symmetry. apply (right_id_L ∅ (∪)).
  - rewrite (IH (add_day acc p)), (IH (add_day ∅ p)).
    unfold add_day. destruct (str_truthy (lower (strip p))).
    + rewrite (right_id_L ∅ (∪)), (comm_L (∪) _ acc), (assoc_L (∪)).
      reflexivity.
    + rewrite (left_id_L ∅ (∪)). reflexivity.
Qed.

Lemma add_days_app (l1 l2 : list string) :
  fold_left add_day (l1 ++ l2) ∅
  = fold_left add_day l1 ∅ ∪ fold_left add_day l2 ∅.
Proof. rewrite fold_left_app. apply add_days_union. Qed.


(** The guard [if not value] changes nothing: the loop alone yields the
    empty set on the empty string. *)
Lemma parse_days_loop (v : string) :
  parse_days (Some v) = fold_left add_day (split_on pipe v) ∅.
Proof.
  unfold parse_days. destruct (str_truthy v) eqn:Hv; [reflexivity|].
  apply str_truthy_false in Hv. subst v. reflexivity.
Qed.




Lemma parse_days_split (a b : string) :
  parse_days (Some (a ++ String pipe b)%string)
  = parse_days (Some a) ∪ parse_days (Some b).
Proof. rewrite !parse_days_loop, split_on_app. apply add_days_app. Qed.

(** X3.  A pipe splits the work: the days of [a|b] are the days of [a]
    together with the days of [b], so order and repetition of the parts
    do not matter. *)
Theorem parse_days_pipe (a b : string) :
  parse_days (Some (a ++ String pipe b)%string)
  = parse_days (Some a) ∪ parse_days (Some b)
  /\ parse_days (Some (a ++ String pipe b)%string)
     = parse_days (Some (b ++ String pipe (a ++ String pipe a))%string).
Proof.
  split; [apply parse_days_split|].
  rewrite !parse_days_split.
  rewrite (idemp_L (∪) (parse_days (Some a))). apply (comm_L (∪)).
Qed.




(** ** [read_participants] *)


Lemma or_none_Some (v : option string) (s : string) :
  or_none v = Some s <-> v = Some s /\ s <> EmptyString.
Proof.
  unfold or_none. destruct v as [t|].
  - destruct (str_truthy t) eqn:Ht.
    + apply str_truthy_true in Ht. split.
      * intros E. inversion E; subst. auto.
      * intros [E _]. exact E.
    + apply str_truthy_false in Ht. subst t. split; [discriminate|].
      intros [E Hn]. inversion E; subst. contradiction.
  - split; [discriminate|]. intros [E _]. discriminate.
Qed.




(** X6.  The two ways a row fails.  [AttributeError]: exactly when the
    row is too short to have a name (a file without a name column is
    fine).  [ValueError]: exactly when the name is there and the distance
    is a non-empty text [float] rejects; an empty or missing distance is
    no error. *)
Theorem participant_of_row_errors (py_float : string -> option spec_float)
    (row : gmap string (option string)) :
  (participant_of_row py_float row = ReadError AttributeError
   <-> row !! "name"%string = Some None)
  /\ (participant_of_row py_float row = ReadError ValueError
      <-> row !! "name"%string <> Some None
          /\ exists s, row_get row "distance" = Some s
                       /\ s <> EmptyString /\ py_float s = None).
Proof.
  unfold participant_of_row, row_get_or.
  destruct (row !! "name"%string) as [[n|]|] eqn:En.
  - split; [|split].
    + destruct (or_none _) as [s|]; [destruct (py_float s)|];
        split; intros; discriminate.
    + destruct (or_none (row_get row "distance")) as [s|] eqn:Ed;
        [destruct (py_float s) eqn:Ef|]; intros; try discriminate.
      split; [discriminate|]. apply or_none_Some in Ed as [Ed Hn]. eauto.
    + intros [_ (s & Hs & Hn & Hf)].
      rewrite (proj2 (or_none_Some _ s) (conj Hs Hn)), Hf. reflexivity.
  - split; [split; reflexivity|]. split; [discriminate|].
    intros [H _]. contradiction.
  - split; [|split].
    + destruct (or_none _) as [s|]; [destruct (py_float s)|];
        split; intros; discriminate.
    + destruct (or_none (row_get row "distance")) as [s|] eqn:Ed;
        [destruct (py_float s) eqn:Ef|]; intros; try discriminate.
      split; [discriminate|]. apply or_none_Some in Ed as [Ed Hn]. eauto.
    + intros [_ (s & Hs & Hn & Hf)].
      rewrite (proj2 (or_none_Some _ s) (conj Hs Hn)), Hf. reflexivity.
Qed.

Lemma participant_of_row_errors_witness :
  participant_of_row float_of_sample row_bad_distance = ReadError ValueError.
Proof.
  apply (proj2 (participant_of_row_errors float_of_sample row_bad_distance)).
  split; [discriminate|]. exists "far"%string.
  split; [reflexivity|]. split; [discriminate|reflexivity].
Defined.

Lemma read_loop_Read (py_float : string -> option spec_float)
    (rows : list (gmap string (option string))) :
  forall acc ps,
    read_loop py_float rows acc = Read ps
    <-> exists qs, ps = acc ++ qs
          /\ Forall2 (fun row p => participant_of_row py_float row = Read p)
                     rows qs.
Proof.
  induction rows as [|row rest IH]; intros acc ps; simpl.
  - split.
    + intros E. inversion E; subst. exists []. rewrite app_nil_r.
      split; [reflexivity|constructor].
    + intros (qs & -> & H). inversion H; subst. rewrite app_nil_r. reflexivity.
  - destruct (participant_of_row py_float row) as [p|e] eqn:Ep.
    + rewrite IH. split.
      * intros (qs & -> & H). exists (p :: qs). rewrite <- app_assoc.
        split; [reflexivity|]. constructor; assumption.
      * intros (qs & -> & H). inversion H as [|? q ? qs' Hq Hrest]; subst.
        rewrite Ep in Hq. inversion Hq; subst q.
        exists qs'. rewrite <- app_assoc. split; [reflexivity|exact Hrest].
    + split; [discriminate|].
      intros (qs & _ & H). inversion H as [|? q ? qs' Hq Hrest]; subst.
      rewrite Ep in Hq. discriminate.
Qed.

Lemma read_loop_Error (py_float : string -> option spec_float)
    (rows : list (gmap string (option string))) (e : read_exn) :
  forall acc,
    read_loop py_float rows acc = ReadError e
    <-> exists pre row post,
          rows = pre ++ row :: post
          /\ Forall (fun r => exists p, participant_of_row py_float r = Read p) pre
          /\ participant_of_row py_float row = ReadError e.
Proof.
  induction rows as [|row rest IH]; intros acc; simpl.
  - split; [discriminate|]. intros (pre & r & post & E & _).
    destruct pre; discriminate.
  - destruct (participant_of_row py_float row) as [p|e'] eqn:Ep.
    + rewrite IH. split.
      * intros (pre & r & post & -> & Hpre & Hr).
        exists (row :: pre), r, post. split; [reflexivity|].
        split; [constructor; eauto|exact Hr].
      * intros (pre & r & post & E & Hpre & Hr).
        destruct pre as [|r0 pre]; simpl in E; injection E as E1 E2.
        -- subst r. congruence.
        -- inversion Hpre; subst. exists pre, r, post. auto.
    + split.
      * intros E. inversion E; subst e'.
        exists [], row, rest. split; [reflexivity|]. split; [constructor|exact Ep].
      * intros (pre & r & post & E & Hpre & Hr).
        destruct pre as [|r0 pre]; simpl in E; injection E as E1 E2.
        -- subst r. congruence.
        -- subst r0. inversion Hpre as [|? ? [p Hp] _]; subst. congruence.
Qed.

(** X7.  [read_participants] returns a list exactly when every row reads:
    one participant per row, in the order of the rows.  It fails exactly
    with the error of the first row that does not read, the rows before it
    having read. *)
Theorem read_participants_rows (py_float : string -> option spec_float)
    (rows : list (gmap string (option string))) :
  (forall ps,
      read_participants py_float rows = Read ps
      <-> Forall2 (fun row p => participant_of_row py_float row = Read p) rows ps)
  /\ (forall e,
        read_participants py_float rows = ReadError e
        <-> exists pre row post,
              rows = pre ++ row :: post
              /\ Forall (fun r => exists p, participant_of_row py_float r = Read p)
                        pre
              /\ participant_of_row py_float row = ReadError e).
Proof.
  unfold read_participants. split.
  - intros ps. rewrite read_loop_Read. simpl. split.
    + intros (qs & -> & H). exact H.
    + intros H. exists ps. auto.
  - intros e. apply read_loop_Error.
Qed.

Lemma read_participants_rows_witness :
  read_participants float_of_sample [row_ana; row_short; row_bad_distance]
  = ReadError ValueError.
Proof.
  apply (proj2 (read_participants_rows float_of_sample
                  [row_ana; row_short; row_bad_distance])).
  exists [row_ana; row_short], row_bad_distance, [].
  split; [reflexivity|]. split.
  - repeat constructor; eexists; vm_compute; reflexivity.
  - vm_compute. reflexivity.
Defined.

Lemma participant_of_row_unassigned (py_float : string -> option spec_float)
    (row : gmap string (option string)) (p : Participant.t) :
  participant_of_row py_float row = Read p -> Participant.assignments p = [].
Proof.
  unfold participant_of_row.
  destruct (row_get_or row "name" "") as [n|]; [|discriminate].
  destruct (or_none (row_get row "distance")) as [s|];
    [destruct (py_float s) as [x|]; [|discriminate]|];
    intros E; inversion E; reflexivity.
Qed.

(** X8.  What [read_participants] returns is a valid start for
    [assign_events]: with events nobody is assigned to, the store is
    fresh, so the run returns and keeps the relationship invariants. *)
Theorem read_participants_fresh (py_float : string -> option spec_float)
    (rows : list (gmap string (option string))) (ps : list Participant.t)
    (es : list Event.t) :
  read_participants py_float rows = Read ps ->
  Forall (fun e => Event.assignments e = []) es ->
  fresh (mkstore ps es) = true
  /\ exists st', assign_events (mkstore ps es) = Ok st' /\ consistent st'.
Proof.
  intros Hr He.
  assert (Hf : fresh (mkstore ps es) = true).
  { unfold fresh. simpl. apply andb_true_iff. split; apply forallb_forall.
    - intros p Hp. apply list_elem_of_In in Hp.
      apply read_loop_Read in Hr as (qs & E & Hr). simpl in E. subst qs.
      apply list_elem_of_lookup_1 in Hp as [i Hi].
      destruct (Forall2_lookup_r _ _ _ _ _ Hr Hi) as (row & _ & Hrow).
      rewrite (participant_of_row_unassigned py_float row p Hrow). reflexivity.
    - intros e Hin. apply list_elem_of_In in Hin.
      rewrite Forall_forall in He. rewrite (He e Hin). reflexivity. }
  split; [exact Hf|].
  destruct (assign_events_run _ Hf) as (st' & E & Hc & _). eauto.
Qed.

Lemma read_participants_fresh_witness :
  fresh (mkstore [ana] sample_events) = true
  /\ exists st', assign_events (mkstore [ana] sample_events) = Ok st'
                 /\ consistent st'.
Proof.
  apply (read_participants_fresh float_of_sample
           [ {[ "name"%string := Some " Ana "%string;
                "preferred_school"%string := Some "Yes"%string;
                "preferred_days"%string := Some " Monday "%string;
                "distance"%string := Some "5.0"%string;
                "country"%string := Some "PT"%string;
                "gender"%string := Some " f"%string ]} ]).
  - vm_compute. reflexivity.
  - repeat constructor.
Defined.

(** ** More about the run of [assign_events] *)

(** X9.  From any store, fresh or not, the run returns, and it writes
    [assignments] lists only: no participant or event is added or
    removed and every other field keeps its value. *)
Theorem run_writes_assignments_only (st : store) :
  exists st',
    assign_events st = Ok st'
    /\ participant_static <$> participants st' = participant_static <$> participants st
    /\ event_static <$> events st' = event_static <$> events st
    /\ length (participants st') = length (participants st)
    /\ length (events st') = length (events st).
Proof.
  destruct (assign_loop_invariant py_sort py_sort_perm (same_static st)
              (enumerate (events st))) with (st := st)
    as (st' & E & [He Hp] & _).
  - intros ei event st1 ci chosen _ Hs _.
    eapply same_static_trans; [exact Hs|apply commit_same_static].
  - apply same_static_refl.
  - exists st'. split; [exact E|]. split; [auto|]. split; [auto|]. split.
    + rewrite <- (length_fmap participant_static), <- Hp, length_fmap. reflexivity.
    + rewrite <- (length_fmap event_static), <- He, length_fmap. reflexivity.
Qed.

Lemma assigned_commit_prefix (st : store) (ei ci e : nat) :
  assigned st e `prefix_of` assigned (commit st ei ci) e.
Proof.
  unfold assigned. simpl. destruct (decide (e = ei)) as [->|Hne].
  - rewrite list_lookup_alter_eq. destruct (events st !! ei) as [ev|]; simpl.
    + exists [ci]. reflexivity.
    + reflexivity.
  - rewrite list_lookup_alter_ne by congruence. reflexivity.
Qed.

Lemma assignments_of_commit_prefix (st : store) (ei ci i : nat) :
  assignments_of st i `prefix_of` assignments_of (commit st ei ci) i.
Proof.
  unfold assignments_of. simpl. destruct (decide (i = ci)) as [->|Hne].
  - rewrite list_lookup_alter_eq. destruct (participants st !! ci) as [p|]; simpl.
    + exists [ei]. reflexivity.
    + reflexivity.
  - rewrite list_lookup_alter_ne by congruence. reflexivity.
Qed.

(** X10.  The lists are append-only: from any store, what a participant
    or an event holds before the run is a prefix of what it holds after;
    nothing is removed or reordered. *)
Theorem run_appends_only (st st' : store) (i e : nat) :
  assign_events st = Ok st' ->
  assignments_of st i `prefix_of` assignments_of st' i
  /\ assigned st e `prefix_of` assigned st' e.
Proof.
  intros Hrun.
  destruct (assign_loop_invariant py_sort py_sort_perm
              (fun x => assignments_of st i `prefix_of` assignments_of x i
                        /\ assigned st e `prefix_of` assigned x e)
              (enumerate (events st))) with (st := st)
    as (st2 & E & H & _).
  - intros ei event st1 ci chosen _ [H1 H2] _. split.
    + etransitivity; [exact H1|apply assignments_of_commit_prefix].
    + etransitivity; [exact H2|apply assigned_commit_prefix].
  - split; reflexivity.
  - unfold assign_events, assign_events_with in Hrun. rewrite Hrun in E.
    inversion E; subst st2. exact H.
Qed.

Lemma run_appends_only_witness :
  assignments_of sample_before_closing 1%nat
    `prefix_of` assignments_of sample_result 1%nat
  /\ assigned sample_before_closing 0%nat `prefix_of` assigned sample_result 0%nat.
Proof.
  apply (run_appends_only sample_before_closing sample_result 1%nat 0%nat).
  vm_compute. reflexivity.
Defined.

(** The pool left by a pass over the slots: what it started with, less
    the participants committed. *)
Lemma fill_slots_pool (ei : nat) (event : Event.t) (n : nat) :
  forall s,
    linked (ls_store s) ei event ->
    exists s',
      fill_slots py_sort n ei event s = Ok s'
      /\ length (candidates (ls_store s') event)
         = (length (candidates (ls_store s) event)
            - Nat.min n (length (candidates (ls_store s) event)))%nat.
Proof.
  induction n as [|n IH]; intros s Hl.
  - exists s. split; [reflexivity|]. lia.
  - cbn [fill_slots].
    destruct (slot_cases py_sort py_sort_perm ei event s)
      as [[Ec E]|(ci & chosen & Hin & E)]; rewrite E; simpl.
    + exists s. split; [reflexivity|]. rewrite Ec. simpl. lia.
    + destruct (candidates_commit _ _ _ _ _ Hl Hin) as (pre & post & Eold & Enew).
      destruct (IH (mkloop (commit (ls_store s) ei ci)
                      (counts_incr_if (country_counts s)
                         (Participant.country chosen))
                      (counts_incr_if (gender_counts s)
                         (Participant.gender chosen))))
        as (s' & E' & Hlen).
      { simpl. eapply same_static_linked; [apply commit_same_static|exact Hl]. }
      simpl in Hlen. exists s'. split; [exact E'|].
      change (length (candidates (ls_store s') event)
              = (length (candidates (ls_store s) event)
                 - Nat.min (S n) (length (candidates (ls_store s) event)))%nat).
      rewrite Hlen, Enew, Eold, !length_app. cbn [length]. lia.
Qed.

Lemma enumerate_split_linked (st : store) (pre post : list (nat * Event.t))
    (ei : nat) (event : Event.t) :
  enumerate (events st) = pre ++ (ei, event) :: post -> linked st ei event.
Proof.
  intros Hsplit. unfold linked.
  assert (Hin : (ei, event) ∈ enumerate (events st)).
  { rewrite Hsplit. apply elem_of_app. right. apply elem_of_cons. left. reflexivity. }
  apply enumerate_lookup in Hin. rewrite Hin. reflexivity.
Qed.

(** X11.  The greedy fill is maximal, event by event: when the turn of an
    event of a fresh store ends, the event has as many participants as
    its capacity asks for, or nobody is eligible for it any more.  What
    the event holds then is what it holds at the end of the run. *)
Theorem event_full_or_pool_empty (st : store) (pre post : list (nat * Event.t))
    (ei : nat) (event : Event.t) :
  fresh st = true ->
  enumerate (events st) = pre ++ (ei, event) :: post ->
  exists st1 st2 st',
    assign_loop py_sort pre st = Ok st1
    /\ fill_event py_sort ei event st1 = Ok st2
    /\ assign_events st = Ok st'
    /\ assigned st' ei = assigned st2 ei
    /\ (Z.of_nat (length (assigned st2 ei)) = Z.max 0 (Event.capacity event)
        \/ candidates st2 event = []).
Proof.
  intros Hf Hsplit.
  destruct (assign_events_event py_sort py_sort_perm st pre post ei event Hsplit)
    as (st1 & st2 & st' & E1 & E2 & E3 & E4 & Ha1 & Hlen & Ha3 & Hs1 & _).
  exists st1, st2, st'. split; [exact E1|]. split; [exact E2|].
  split; [exact E4|]. split; [exact Ha3|].
  pose proof (same_static_linked st st1 ei event Hs1
                (enumerate_split_linked st pre post ei event Hsplit)) as Hl.
  destruct (fill_slots_pool ei event (Z.to_nat (Event.capacity event))
              (mkloop st1 ∅ ∅) Hl) as (s' & Es & Hpool).
  unfold fill_event in E2. rewrite Es in E2. simpl in E2, Hpool.
  inversion E2; subst st2.
  rewrite Ha1, (fresh_assigned st ei Hf) in Hlen. simpl in Hlen.
  destruct (Nat.le_gt_cases (Z.to_nat (Event.capacity event))
              (length (candidates st1 event))) as [Hle|Hgt].
  - left. rewrite Hlen. lia.
  - right. apply length_zero_iff_nil. rewrite Hpool. lia.
Qed.

Lemma event_full_or_pool_empty_witness :
  exists st1 st2 st',
    assign_loop py_sort [(0%nat, opening)] sample_store = Ok st1
    /\ fill_event py_sort 1%nat workshop st1 = Ok st2
    /\ assign_events sample_store = Ok st'
    /\ assigned st' 1%nat = assigned st2 1%nat
    /\ (Z.of_nat (length (assigned st2 1%nat)) = Z.max 0 (Event.capacity workshop)
        \/ candidates st2 workshop = []).
Proof.
  apply (event_full_or_pool_empty sample_store [(0%nat, opening)]
           [(2%nat, closing)] 1%nat workshop); reflexivity.
Defined.

Lemma fresh_candidates (st : store) (event : Event.t) :
  fresh st = true -> candidates st event = enumerate (participants st).
Proof.
  intros Hf. unfold candidates.
  rewrite <- (List.filter_true (enumerate (participants st))) at 2.
  apply List.filter_ext_in. intros [i p] Hin. simpl.
  apply list_elem_of_In, enumerate_lookup in Hin.
  pose proof (fresh_assignments_of st i Hf) as Ha.
  rewrite (assignments_of_lookup st i p Hin) in Ha.
  unfold eligible. rewrite Ha. reflexivity.
Qed.

(** X12.  Earlier events pick first: the first event of a fresh store
    gets [min capacity n] participants, [n] being the number of
    participants; nobody is held back for later events. *)
Theorem first_event_takes_all_it_can (st st' : store) (event : Event.t)
    (rest : list Event.t) :
  fresh st = true ->
  events st = event :: rest ->
  assign_events st = Ok st' ->
  length (assigned st' 0%nat)
  = Nat.min (Z.to_nat (Event.capacity event)) (length (participants st)).
Proof.
  intros Hf Hev Hrun.
  assert (Hsplit : enumerate (events st)
                   = [] ++ (0%nat, event) :: imap (pair ∘ S) rest).
  { rewrite Hev. reflexivity. }
  destruct (assign_events_event py_sort py_sort_perm st [] _ 0%nat event Hsplit)
    as (st1 & st2 & st3 & E1 & E2 & E3 & E4 & Ha1 & Hlen & Ha3 & _).
  simpl in E1. inversion E1; subst st1.
  unfold assign_events in Hrun. rewrite Hrun in E4. inversion E4; subst st3.
  rewrite Ha3, Hlen, (fresh_assigned st 0%nat Hf), (fresh_candidates st event Hf).
  unfold enumerate. rewrite length_imap. reflexivity.
Qed.

Lemma first_event_takes_all_it_can_witness :
  length (assigned sample_result 0%nat)
  = Nat.min (Z.to_nat (Event.capacity opening)) (length (participants sample_store)).
Proof.
  apply (first_event_takes_all_it_can sample_store sample_result opening
           [workshop; closing]); [reflexivity | reflexivity | exact sample_run].
Defined.

(** X13.  What the counters count.  In the turn of any event of a fresh
    store, before the first slot and after every commit, each counter maps
    a non-empty value to the number of participants already committed to
    this event who carry it, and never counts the empty string. *)
Theorem counters_count_this_event (st st1 : store)
    (pre post : list (nat * Event.t)) (ei : nat) (event : Event.t) :
  fresh st = true ->
  enumerate (events st) = pre ++ (ei, event) :: post ->
  assign_loop py_sort pre st = Ok st1 ->
  Forall (counters_tally ei)
         (mkloop st1 ∅ ∅
          :: fill_trace py_sort (Z.to_nat (Event.capacity event)) ei event
               (mkloop st1 ∅ ∅)).
Proof.
  intros Hf Hsplit E1.
  destruct (assign_events_event py_sort py_sort_perm st pre post ei event Hsplit)
    as (st1' & st2 & st' & E1' & _ & _ & _ & Ha1 & _ & _ & Hs1 & _).
  rewrite E1 in E1'. inversion E1'; subst st1'.
  apply counters_are_tallies.
  - exact py_sort_perm.
  - eapply same_static_linked; [exact Hs1|].
    eapply enumerate_split_linked; eauto.
  - rewrite Ha1. apply fresh_assigned, Hf.
Qed.

Lemma counters_count_this_event_witness :
  Forall (counters_tally 0%nat)
         (mkloop sample_store ∅ ∅
          :: fill_trace py_sort (Z.to_nat (Event.capacity opening)) 0%nat opening
               (mkloop sample_store ∅ ∅)).
Proof.
  apply (counters_count_this_event sample_store sample_store []
           [(1%nat, workshop); (2%nat, closing)] 0%nat opening); reflexivity.
Defined.

(** X14.  After a run on a fresh store no participant holds an event
    twice, and no event holds more participants than there are. *)
Theorem rosters_bounded (st st' : store) (pi ei : nat) :
  fresh st = true ->
  assign_events st = Ok st' ->
  NoDup (assignments_of st' pi)
  /\ (length (assigned st' ei) <= length (participants st))%nat.
Proof.
  intros Hf Hrun.
  destruct (assign_events_run st Hf) as (st2 & E & Hc & Hs & _).
  rewrite Hrun in E. inversion E; subst st2. clear E. split.
  - apply NoDup_alt. intros j k e Hj Hk.
    destruct (decide (j = k)) as [|Hne]; [assumption|exfalso].
    assert (Hin : pi ∈ assigned st' e).
    { apply (c_forward st' Hc). eapply list_elem_of_lookup_2, Hj. }
    unfold assigned in Hin. destruct (events st' !! e) as [ev|] eqn:Ee;
      [|apply elem_of_nil in Hin; contradiction].
    pose proof (c_spacing st' Hc pi j k e e ev ev Hne Hj Hk Ee Ee) as Hd.
    rewrite days_between_same in Hd. lia.
  - assert (Hlen : length (participants st) = length (participants st')).
    { destruct Hs as [_ Hp].
      rewrite <- (length_fmap participant_static), Hp, length_fmap. reflexivity. }
    rewrite Hlen, <- (length_seq (length (participants st')) 0).
    apply submseteq_length, NoDup_submseteq; [apply (c_nodup st' Hc)|].
    intros i Hi. apply (c_backward st' Hc) in Hi.
    apply elem_of_seq. split; [lia|]. simpl.
    unfold assignments_of in Hi.
    destruct (participants st' !! i) as [p|] eqn:Ep;
      [|apply elem_of_nil in Hi; contradiction].
    eapply lookup_lt_Some, Ep.
Qed.

Lemma rosters_bounded_witness :
  NoDup (assignments_of sample_result 0%nat)
  /\ (length (assigned sample_result 2%nat) <= length (participants sample_store))%nat.
Proof.
  apply (rosters_bounded sample_store sample_result 0%nat 2%nat);
    [reflexivity | exact sample_run].
Defined.

(** X15.  An event whose capacity is zero or negative gets nobody:
    [range] of such a number is empty. *)
Theorem no_capacity_no_participants (st st' : store) (ei : nat) (e : Event.t) :
  fresh st = true ->
  assign_events st = Ok st' ->
  events st' !! ei = Some e ->
  Event.capacity e <= 0 ->
  Event.assignments e = [].
Proof.
  intros Hf Hrun He Hcap.
  destruct (run_event_view st st' ei e Hf Hrun He)
    as (e0 & pre & post & st1 & _ & Hstat & _ & Hlen).
  assert (Hc : Event.capacity e0 = Event.capacity e)
    by (unfold event_static in Hstat; congruence).
  apply length_zero_iff_nil. rewrite Hlen, Hc. lia.
Qed.

Lemma no_capacity_no_participants_witness :
  Event.assignments closed_event = [].
Proof.
  apply (no_capacity_no_participants closed_store closed_store 0%nat closed_event);
    [reflexivity | reflexivity | reflexivity | vm_compute; discriminate].
Defined.

(** X16.  Capacity bounds what one turn adds, not what the event holds:
    from any store in which the event is at its position, the turn
    returns and appends [min capacity pool] participants to those the
    event already has, and leaves the other events alone. *)
Theorem turn_adds_min_capacity_pool (st : store) (ei : nat) (event : Event.t) :
  linked st ei event ->
  exists st' added,
    fill_event py_sort ei event st = Ok st'
    /\ assigned st' ei = assigned st ei ++ added
    /\ length added
       = Nat.min (Z.to_nat (Event.capacity event)) (length (candidates st event))
    /\ forall e, e <> ei -> assigned st' e = assigned st e.
Proof.
  intros Hl.
  destruct (fill_event_count py_sort py_sort_perm ei event st Hl)
    as (st' & E & Hlen & Hframe & _).
  assert (Hpre : assigned st ei `prefix_of` assigned st' ei).
  { unfold fill_event in E.
    destruct (fill_slots_invariant py_sort py_sort_perm
                (fun s => assigned st ei `prefix_of` assigned (ls_store s) ei)
                ei event) with (n := Z.to_nat (Event.capacity event))
                               (s := mkloop st ∅ ∅) as (s' & Es & Hs' & _).
    - intros s ci chosen H _. simpl.
      etransitivity; [exact H|apply assigned_commit_prefix].
    - reflexivity.
    - rewrite Es in E. simpl in E. inversion E; subst st'. exact Hs'. }
  destruct Hpre as [added Hadd].
  exists st', added. split; [exact E|]. split; [exact Hadd|]. split; [|exact Hframe].
  rewrite Hadd, length_app in Hlen. lia.
Qed.

Lemma turn_adds_min_capacity_pool_witness :
  exists st' added,
    fill_event py_sort 2%nat closing sample_before_closing = Ok st'
    /\ assigned st' 2%nat = assigned sample_before_closing 2%nat ++ added
    /\ length added
       = Nat.min (Z.to_nat (Event.capacity closing))
                 (length (candidates sample_before_closing closing))
    /\ forall e, e <> 2%nat -> assigned st' e = assigned sample_before_closing e.
Proof.
  apply (turn_adds_min_capacity_pool sample_before_closing 2%nat closing).
  reflexivity.
Defined.

(** ** [gender_diff] and the order on keys *)

Lemma gender_diff_counts (gc : gmap string Z) (g : option string) :
  gender_diff gc g
  = Z.abs (count_after_adding gc g "M" - count_after_adding gc g "F").
Proof.
  unfold gender_diff. rewrite !counts_get_incr_if by reflexivity. reflexivity.
Qed.

(** X17.  How [gender_diff] ranks: a candidate who is neither "M" nor "F"
    (or has no gender) scores the current imbalance [|M - F|]; when one of
    the two is ahead, a candidate of the other scores one less and a
    candidate of the same scores one more; on a tie both score 1. *)
Theorem gender_diff_balances (gc : gmap string Z) :
  let m := counts_get gc "M" in
  let f := counts_get gc "F" in
  (forall g, g <> Some "M"%string -> g <> Some "F"%string ->
             gender_diff gc g = Z.abs (m - f))
  /\ (f < m ->
      gender_diff gc (Some "F"%string) = m - f - 1
      /\ gender_diff gc (Some "M"%string) = m - f + 1)
  /\ (m < f ->
      gender_diff gc (Some "M"%string) = f - m - 1
      /\ gender_diff gc (Some "F"%string) = f - m + 1)
  /\ (m = f ->
      gender_diff gc (Some "M"%string) = 1 /\ gender_diff gc (Some "F"%string) = 1).
Proof.
  intros m f. subst m f. split; [|split; [|split]].
  - intros g Hm Hf. rewrite gender_diff_counts. unfold count_after_adding.
    rewrite !decide_False by assumption. f_equal. lia.
  - intros H. rewrite !gender_diff_counts. unfold count_after_adding.
    repeat case_decide; try congruence; lia.
  - intros H. rewrite !gender_diff_counts. unfold count_after_adding.
    repeat case_decide; try congruence; lia.
  - intros H. rewrite !gender_diff_counts. unfold count_after_adding.
    repeat case_decide; try congruence; lia.
Qed.

(** X18.  Python's [<] on ranking keys is a strict weak order as long as
    no distance is NaN: nothing is less than itself, [<] is transitive,
    and so is "neither is less than the other", which is what makes
    "minimal key" and "tie" meaningful for the sort. *)
Theorem key_lt_strict_weak_order (a b c : key) :
  key_ordered a = true -> key_ordered b = true -> key_ordered c = true ->
  key_lt a a = false
  /\ (key_lt a b = true -> key_lt b c = true -> key_lt a c = true)
  /\ (key_lt a b = true -> key_lt b a = false)
  /\ (key_equiv a b = true -> key_equiv b c = true -> key_equiv a c = true).
Proof.
  intros Ha Hb Hc. split; [apply key_lt_irrefl|].
  split; [apply key_lt_trans; assumption|].
  split; [apply key_lt_asym; assumption|].
  unfold key_equiv. intros H1 H2.
  apply andb_true_iff in H1 as [H1 H1'], H2 as [H2 H2'].
  apply negb_true_iff in H1, H1', H2, H2'.
  rewrite (key_lt_negtrans a b c), (key_lt_negtrans c b a) by assumption.
  reflexivity.
Qed.

Lemma key_lt_strict_weak_order_witness :
  key_lt (candidate_key ana opening ∅ ∅) (candidate_key ana opening ∅ ∅) = false
  /\ (key_lt (candidate_key ana opening ∅ ∅) (candidate_key ben opening ∅ ∅) = true ->
      key_lt (candidate_key ben opening ∅ ∅) (candidate_key cy opening ∅ ∅) = true ->
      key_lt (candidate_key ana opening ∅ ∅) (candidate_key cy opening ∅ ∅) = true)
  /\ (key_lt (candidate_key ana opening ∅ ∅) (candidate_key ben opening ∅ ∅) = true ->
      key_lt (candidate_key ben opening ∅ ∅) (candidate_key ana opening ∅ ∅) = false)
  /\ (key_equiv (candidate_key ana opening ∅ ∅) (candidate_key ben opening ∅ ∅) = true ->
      key_equiv (candidate_key ben opening ∅ ∅) (candidate_key cy opening ∅ ∅) = true ->
      key_equiv (candidate_key ana opening ∅ ∅) (candidate_key cy opening ∅ ∅) = true).
Proof.
  apply (key_lt_strict_weak_order (candidate_key ana opening ∅ ∅)
           (candidate_key ben opening ∅ ∅) (candidate_key cy opening ∅ ∅));
    reflexivity.
Defined.



Lemma gender_diff_balances_witness :
  gender_diff {[ "M"%string := 2 ]} (Some "F"%string)
  = counts_get {[ "M"%string := 2 ]} "M" - counts_get {[ "M"%string := 2 ]} "F" - 1
  /\ gender_diff {[ "M"%string := 2 ]} (Some "M"%string)
     = counts_get {[ "M"%string := 2 ]} "M" - counts_get {[ "M"%string := 2 ]} "F" + 1.
Proof.
  apply (proj1 (proj2 (gender_diff_balances {[ "M"%string := 2 ]}))).
  reflexivity.
Defined.

(** ** More about [filter_participants] *)

Lemma filter_filter_bool {X : Type} (f g : X -> bool) (l : list X) :
  List.filter f (List.filter g l) = List.filter (fun x => g x && f x) l.
Proof.
  induction l as [|x l IH]; simpl; [reflexivity|].
  destruct (g x); simpl; [|exact IH]. destruct (f x); simpl; rewrite IH; reflexivity.
Qed.

Lemma excluded_by_text_inactive (v : option string) :
  or_none v = None ->
  (forall p, excluded_by_gender v p = false)
  /\ (forall p, excluded_by_country v p = false)
  /\ (forall p, excluded_by_day (normalise_day v) p = false).
Proof.
  unfold or_none, excluded_by_gender, excluded_by_country, normalise_day.
  destruct v as [s|]; [|repeat split; reflexivity].
  destruct (str_truthy s); [discriminate|]. repeat split; reflexivity.
Qed.

(** X20.  Without criteria the filter returns its input unchanged, and an
    empty string for gender, country or day counts as no criterion. *)
Theorem filter_without_criteria (ps : list Participant.t)
    (gender country day : option string) :
  or_none gender = None -> or_none country = None -> or_none day = None ->
  filter_participants ps gender country day None None = ps.
Proof.
  intros Hg Hc Hd. rewrite filter_participants_spec.
  rewrite <- (List.filter_true ps) at 2. apply List.filter_ext. intros p.
  unfold retained.
  rewrite (proj1 (excluded_by_text_inactive gender Hg) p).
  rewrite (proj1 (proj2 (excluded_by_text_inactive country Hc)) p).
  rewrite (proj2 (proj2 (excluded_by_text_inactive day Hd)) p).
  reflexivity.
Qed.

Lemma filter_without_criteria_witness :
  filter_participants sample_participants (Some ""%string) None (Some ""%string)
    None None
  = sample_participants.
Proof. apply filter_without_criteria; reflexivity. Defined.

(** X21.  Calls of the filter compose as conjunctions: a second call with
    the same criteria changes nothing, two calls commute, and one call
    with all criteria equals a gender-only call followed by a call with
    the other criteria. *)
Theorem filter_calls_compose (ps : list Participant.t)
    (g1 c1 d1 g2 c2 d2 : option string) (s1 s2 : option bool)
    (m1 m2 : option spec_float) :
  filter_participants (filter_participants ps g1 c1 d1 s1 m1) g1 c1 d1 s1 m1
  = filter_participants ps g1 c1 d1 s1 m1
  /\ filter_participants (filter_participants ps g1 c1 d1 s1 m1) g2 c2 d2 s2 m2
     = filter_participants (filter_participants ps g2 c2 d2 s2 m2) g1 c1 d1 s1 m1
  /\ filter_participants ps g1 c1 d1 s1 m1
     = filter_participants (filter_participants ps g1 None None None None)
         None c1 d1 s1 m1.
Proof.
  rewrite !filter_participants_spec, !filter_filter_bool.
  split; [|split]; apply List.filter_ext; intros p.
  - destruct (retained g1 c1 (normalise_day d1) s1 m1 p); reflexivity.
  - apply andb_comm.
  - unfold retained. simpl.
    destruct (excluded_by_gender g1 p); simpl; [reflexivity|].
    destruct (excluded_by_country c1 p); reflexivity.
Qed.






(** X23.  A participant with no school preference and no distance passes
    the school and the distance criteria whatever they are: it is in the
    result exactly when it is without them. *)
Theorem unset_school_and_distance_pass (ps : list Participant.t)
    (gender country day : option string) (school : option bool)
    (max_distance : option spec_float) (p : Participant.t) :
  Participant.preferred_school p = None ->
  Participant.distance p = None ->
  (p ∈ filter_participants ps gender country day school max_distance
   <-> p ∈ filter_participants ps gender country day None None).
Proof.
  intros Hs Hd. rewrite !filter_participants_spec, !list_elem_of_In, !filter_In.
  unfold retained, excluded_by_school, excluded_by_distance.
  rewrite Hs, Hd. destruct school, max_distance; reflexivity.
Qed.

Lemma unset_school_and_distance_pass_witness :
  dee ∈ filter_participants [ana; dee] None None None (Some false) (Some float_1)
  <-> dee ∈ filter_participants [ana; dee] None None None None None.
Proof. apply unset_school_and_distance_pass; reflexivity. Defined.

Lemma str_map_truthy (f : ascii -> ascii) (a b : string) :
  str_map f a = str_map f b -> str_truthy a = str_truthy b.
Proof. destruct a, b; simpl; intros H; try reflexivity; discriminate. Qed.

(** X24.  The text criteria are read up to case: gender arguments with
    the same uppercase form, and country or day arguments with the same
    lowercase form, select the same participants. *)
Theorem filter_arguments_ignore_case (ps : list Participant.t)
    (g g' c c' d d' : string) (school : option bool)
    (max_distance : option spec_float) :
  upper g = upper g' -> lower c = lower c' -> lower d = lower d' ->
  filter_participants ps (Some g) (Some c) (Some d) school max_distance
  = filter_participants ps (Some g') (Some c') (Some d') school max_distance.
Proof.
  intros Hg Hc Hd. rewrite !filter_participants_spec.
  apply List.filter_ext. intros p.
  unfold retained, excluded_by_gender, excluded_by_country, normalise_day.
  rewrite Hg, Hc, Hd.
  rewrite (str_map_truthy _ g g' Hg), (str_map_truthy _ c c' Hc),
    (str_map_truthy _ d d' Hd).
  reflexivity.
Qed.

Lemma filter_arguments_ignore_case_witness :
  filter_participants sample_participants (Some "f"%string) (Some "PT"%string)
    (Some "MONDAY"%string) None None
  = filter_participants sample_participants (Some "F"%string) (Some "pt"%string)
      (Some "monday"%string) None None.
Proof. apply filter_arguments_ignore_case; reflexivity. Defined.

(** ** Counting the assignments from both sides *)

Lemma enumerate_NoDup {X : Type} (l : list X) : NoDup (enumerate l).
Proof. apply (NoDup_fmap_1 fst). rewrite enumerate_fst. apply NoDup_seq. Qed.

Lemma event_pairs_elem (st : store) (e i : nat) :
  (e, i) ∈ event_pairs st <-> i ∈ assigned st e.
Proof.
  unfold event_pairs, assigned. rewrite list_elem_of_bind. split.
  - intros ([e' ev] & Hin & Hev). simpl in Hin.
    apply list_elem_of_fmap in Hin as (j & E & Hj). inversion E; subst.
    apply enumerate_lookup in Hev. rewrite Hev. exact Hj.
  - destruct (events st !! e) as [ev|] eqn:Ee;
      [|intros H; apply elem_of_nil in H; contradiction].
    intros Hi. exists (e, ev). split.
    + simpl. apply list_elem_of_fmap. exists i. auto.
    + apply enumerate_lookup, Ee.
Qed.

Lemma participant_pairs_elem (st : store) (e i : nat) :
  (e, i) ∈ participant_pairs st <-> e ∈ assignments_of st i.
Proof.
  unfold participant_pairs, assignments_of. rewrite list_elem_of_bind. split.
  - intros ([i' p] & Hin & Hp). simpl in Hin.
    apply list_elem_of_fmap in Hin as (j & E & Hj). inversion E; subst.
    apply enumerate_lookup in Hp. rewrite Hp. exact Hj.
  - destruct (participants st !! i) as [p|] eqn:Ep;
      [|intros H; apply elem_of_nil in H; contradiction].
    intros He. exists (i, p). split.
    + simpl. apply list_elem_of_fmap. exists e. auto.
    + apply enumerate_lookup, Ep.
Qed.

Lemma consistent_assignments_NoDup (st : store) (i : nat) :
  consistent st -> NoDup (assignments_of st i).
Proof.
  intros Hc. apply NoDup_alt. intros j k e Hj Hk.
  destruct (decide (j = k)) as [|Hne]; [assumption|exfalso].
  assert (Hin : i ∈ assigned st e).
  { apply (c_forward st Hc). eapply list_elem_of_lookup_2, Hj. }
  unfold assigned in Hin. destruct (events st !! e) as [ev|] eqn:Ee;
    [|apply elem_of_nil in Hin; contradiction].
  pose proof (c_spacing st Hc i j k e e ev ev Hne Hj Hk Ee Ee) as Hd.
  rewrite days_between_same in Hd. lia.
Qed.

Lemma event_pairs_NoDup (st : store) : consistent st -> NoDup (event_pairs st).
Proof.
  intros Hc. unfold event_pairs. apply NoDup_bind.
  - intros [e1 ev1] [e2 ev2] [e i] H1 H2 Hy1 Hy2. simpl in Hy1, Hy2.
    apply list_elem_of_fmap in Hy1 as (? & E1 & _), Hy2 as (? & E2 & _).
    inversion E1; inversion E2; subst.
    apply enumerate_lookup in H1, H2. congruence.
  - intros [e ev] Hin. simpl. apply enumerate_lookup in Hin.
    apply NoDup_fmap_2_strong.
    + intros x y _ _ E. inversion E. reflexivity.
    + rewrite <- (assigned_lookup st e ev Hin). apply (c_nodup st Hc).
  - apply enumerate_NoDup.
Qed.

Lemma participant_pairs_NoDup (st : store) :
  consistent st -> NoDup (participant_pairs st).
Proof.
  intros Hc. unfold participant_pairs. apply NoDup_bind.
  - intros [i1 p1] [i2 p2] [e i] H1 H2 Hy1 Hy2. simpl in Hy1, Hy2.
    apply list_elem_of_fmap in Hy1 as (? & E1 & _), Hy2 as (? & E2 & _).
    inversion E1; inversion E2; subst.
    apply enumerate_lookup in H1, H2. congruence.
  - intros [i p] Hin. simpl. apply enumerate_lookup in Hin.
    apply NoDup_fmap_2_strong.
    + intros x y _ _ E. inversion E. reflexivity.
    + rewrite <- (assignments_of_lookup st i p Hin).
      apply consistent_assignments_NoDup, Hc.
  - apply enumerate_NoDup.
Qed.

Lemma length_bind_enumerate {X Y : Type} (g : X -> nat) (f : nat * X -> list Y)
    (l : list X) :
  (forall i x, length (f (i, x)) = g x) ->
  forall k, length (imap (fun n => pair (k + n)%nat) l ≫= f) = sum_list_with g l.
Proof.
  intros Hf. induction l as [|x l IH]; intros k; [reflexivity|].
  cbn [imap]. rewrite bind_cons, length_app, Hf. cbn [sum_list_with]. f_equal.
  rewrite <- (IH (S k)). f_equal. f_equal.
  apply imap_ext. intros i y _. simpl. f_equal. lia.
Qed.

Lemma event_pairs_length (st : store) :
  length (event_pairs st)
  = sum_list_with (fun e => length (Event.assignments e)) (events st).
Proof.
  unfold event_pairs, enumerate.
  apply (length_bind_enumerate _ _ _ (fun i x => length_fmap _ _) 0%nat).
Qed.

Lemma participant_pairs_length (st : store) :
  length (participant_pairs st)
  = sum_list_with (fun p => length (Participant.assignments p)) (participants st).
Proof.
  unfold participant_pairs, enumerate.
  apply (length_bind_enumerate _ _ _ (fun i x => length_fmap _ _) 0%nat).
Qed.

Lemma sum_list_with_bound {X : Type} (g : X -> nat) (b : nat) (l : list X) :
  Forall (fun x => (g x <= b)%nat) l -> (sum_list_with g l <= b * length l)%nat.
Proof. induction 1 as [|x l Hx _ IH]; simpl; lia. Qed.

Lemma consistent_count (st : store) :
  consistent st ->
  sum_list_with (fun e => length (Event.assignments e)) (events st)
  = sum_list_with (fun p => length (Participant.assignments p)) (participants st)
  /\ (sum_list_with (fun e => length (Event.assignments e)) (events st)
      <= 2 * length (participants st))%nat.
Proof.
  intros Hc.
  assert (Heq : sum_list_with (fun e => length (Event.assignments e)) (events st)
                = sum_list_with (fun p => length (Participant.assignments p))
                    (participants st)).
  { rewrite <- event_pairs_length, <- participant_pairs_length.
    apply Permutation_length, NoDup_Permutation.
    - apply event_pairs_NoDup, Hc.
    - apply participant_pairs_NoDup, Hc.
    - intros [e i]. rewrite event_pairs_elem, participant_pairs_elem.
      split; [apply (c_backward st Hc)|apply (c_forward st Hc)]. }
  split; [exact Heq|]. rewrite Heq.
  apply sum_list_with_bound.
  apply Forall_forall. intros p Hp.
  apply list_elem_of_lookup_1 in Hp as [i Hi].
  rewrite <- (assignments_of_lookup st i p Hi). apply (c_cap st Hc).
Qed.

(** X25.  After a run on a fresh store the assignments count the same
    from both sides: the sizes of the events' lists and the sizes of the
    participants' lists add up to the same number, which is at most twice
    the number of participants. *)
Theorem assignments_count_both_sides (st st' : store) :
  fresh st = true ->
  assign_events st = Ok st' ->
  sum_list_with (fun e => length (Event.assignments e)) (events st')
  = sum_list_with (fun p => length (Participant.assignments p)) (participants st')
  /\ (sum_list_with (fun e => length (Event.assignments e)) (events st')
      <= 2 * length (participants st))%nat.
Proof.
  intros Hf Hrun.
  destruct (assign_events_run st Hf) as (st2 & E & Hc & Hs & _).
  rewrite Hrun in E. inversion E; subst st2. clear E.
  assert (Hlen : length (participants st) = length (participants st')).
  { destruct Hs as [_ Hp].
    rewrite <- (length_fmap participant_static), Hp, length_fmap. reflexivity. }
  rewrite Hlen. apply consistent_count, Hc.
Qed.

Lemma assignments_count_both_sides_witness :
  sum_list_with (fun e => length (Event.assignments e)) (events sample_result)
  = sum_list_with (fun p => length (Participant.assignments p))
      (participants sample_result)
  /\ (sum_list_with (fun e => length (Event.assignments e)) (events sample_result)
      <= 2 * length (participants sample_store))%nat.
Proof.
  apply (assignments_count_both_sides sample_store sample_result);
    [reflexivity | exact sample_run].
Defined.

(** ** [output_assignments] *)

Lemma length_bind_sum {X Y : Type} (f : X -> list Y) (g : X -> nat) (l : list X) :
  Forall (fun x => length (f x) = g x) l ->
  length (l ≫= f) = sum_list_with g l.
Proof.
  induction 1 as [|x l Hx _ IH]; [reflexivity|].
  rewrite bind_cons, length_app, Hx, IH. reflexivity.
Qed.

Lemma length_omap_total {X Y : Type} (f : X -> option Y) (l : list X) :
  Forall (fun x => is_Some (f x)) l -> length (omap f l) = length l.
Proof.
  induction 1 as [|x l [y Hy] _ IH]; [reflexivity|].
  cbn [omap list_omap]. rewrite Hy. simpl. rewrite IH. reflexivity.
Qed.

(** In a consistent store every reference of an event resolves. *)
Lemma members_length (st : store) (e : nat) (ev : Event.t) :
  consistent st -> events st !! e = Some ev ->
  length (members st ev) = length (Event.assignments ev).
Proof.
  intros Hc He. unfold members. apply length_omap_total.
  apply Forall_forall. intros i Hi.
  rewrite <- (assigned_lookup st e ev He) in Hi.
  apply (c_backward st Hc) in Hi. unfold assignments_of in Hi.
  destruct (participants st !! i) as [p|]; [eauto|].
  apply elem_of_nil in Hi. contradiction.
Qed.

Lemma endswith_truthy (p suffix : string) :
  suffix <> EmptyString -> endswith p suffix = true -> or_none (Some p) = Some p.
Proof.
  intros Hs H. unfold or_none. destruct p; [|reflexivity].
  destruct suffix; [contradiction|discriminate].
Qed.

(** X26.  With a path ending in [.csv], after a run on a fresh store, the
    writer gets the header and then one row of four fields for every
    assignment, so at most twice as many rows as participants; nothing is
    printed. *)
Theorem csv_one_row_per_assignment
    (tabulate : option (list (list string) -> list string -> string))
    (st st' : store) (path : string) :
  fresh st = true ->
  assign_events st = Ok st' ->
  endswith path ".csv" = true ->
  exists data,
    output_assignments tabulate st' (Some path) = CsvWritten path (csv_header :: data)
    /\ length data
       = sum_list_with (fun e => length (Event.assignments e)) (events st')
    /\ Forall (fun row => length row = 4%nat) data
    /\ (length data <= 2 * length (participants st))%nat.
Proof.
  intros Hf Hrun Hp.
  destruct (assign_events_run st Hf) as (st2 & E & Hc & Hs & _).
  rewrite Hrun in E. inversion E; subst st2. clear E.
  unfold output_assignments.
  rewrite (endswith_truthy path ".csv" ltac:(discriminate) Hp), Hp.
  eexists. split; [reflexivity|].
  assert (Hlen : length (events st' ≫= fun event =>
                   (fun p => [Event.name event; isoformat (Event.date event);
                              Event.location event; Participant.name p])
                   <$> members st' event)
                 = sum_list_with (fun e => length (Event.assignments e)) (events st')).
  { apply length_bind_sum. apply Forall_forall. intros ev Hev.
    apply list_elem_of_lookup_1 in Hev as [e He].
    rewrite length_fmap. apply (members_length st' e ev Hc He). }
  split; [exact Hlen|]. split.
  - apply Forall_bind. apply Forall_forall. intros ev _. simpl.
    apply Forall_fmap, Forall_forall. intros p _. reflexivity.
  - rewrite Hlen.
    assert (Hn : length (participants st) = length (participants st')).
    { destruct Hs as [_ Hps].
      rewrite <- (length_fmap participant_static), Hps, length_fmap. reflexivity. }
    rewrite Hn. apply (consistent_count st' Hc).
Qed.

Lemma csv_one_row_per_assignment_witness :
  exists data,
    output_assignments None sample_result (Some "out.csv"%string)
    = CsvWritten "out.csv" (csv_header :: data)
    /\ length data
       = sum_list_with (fun e => length (Event.assignments e)) (events sample_result)
    /\ Forall (fun row => length row = 4%nat) data
    /\ (length data <= 2 * length (participants sample_store))%nat.
Proof.
  apply (csv_one_row_per_assignment None sample_store sample_result "out.csv");
    [reflexivity | exact sample_run | reflexivity].
Defined.

(** X27.  Only the two suffixes write a file, and they are matched as
    written: with any other path, [out.CSV] included, nothing is written
    and the listing is printed as if no path were given. *)
Theorem other_paths_print
    (tabulate : option (list (list string) -> list string -> string))
    (st : store) (path : string) :
  endswith path ".csv" = false ->
  endswith path ".html" = false ->
  output_assignments tabulate st (Some path)
  = output_assignments tabulate st None.
Proof.
  intros H1 H2. unfold output_assignments.
  destruct (or_none (Some path)) as [p|] eqn:Ep; [|reflexivity].
  apply or_none_Some in Ep as [Ep _]. inversion Ep; subst p.
  rewrite H1, H2. reflexivity.
Qed.

Lemma other_paths_print_witness :
  output_assignments None sample_result (Some "out.CSV"%string)
  = output_assignments None sample_result None.
Proof. apply other_paths_print; reflexivity. Defined.

Example isoformat_padded : isoformat (Date.mk 987 3 5) = "0987-03-05"%string.
Proof. vm_compute. reflexivity. Qed.

(** ** The distance criterion *)

Lemma float_key_lt (x y : spec_float) :
  key_lt (0, 0, x, 0, 0) (0, 0, y, 0, 0) = float_lt x y.
Proof.
  unfold key_lt. simpl. unfold float_eq, float_lt, SFeqb, SFltb.
  destruct (SFcompare x y) as [[| |]|]; reflexivity.
Qed.

Lemma float_lt_negtrans (x y z : spec_float) :
  is_nan x = false -> is_nan y = false -> is_nan z = false ->
  float_lt x y = false -> float_lt y z = false -> float_lt x z = false.
Proof.
  intros Hx Hy Hz. rewrite <- !float_key_lt.
  apply key_lt_negtrans; unfold key_ordered; rewrite ?Hx, ?Hy, ?Hz; reflexivity.
Qed.

Lemma float_gt_lt (x y : spec_float) : float_gt x y = float_lt y x.
Proof.
  unfold float_gt, float_lt, SFltb.
  destruct x as [[|]|[|]| |[|] mx ex], y as [[|]|[|]| |[|] my ey];
    simpl; try reflexivity;
    change (Pos.compare_cont Eq mx my) with (Pos.compare mx my);
    change (Pos.compare_cont Eq my mx) with (Pos.compare my mx);
    rewrite (Z.compare_antisym ex ey), (Pos.compare_antisym mx my);
    destruct (Z.compare ex ey), (Pos.compare mx my); reflexivity.
Qed.

Lemma filter_sublist_mono {X : Type} (f g : X -> bool) (l : list X) :
  Forall (fun x => f x = true -> g x = true) l ->
  sublist (List.filter f l) (List.filter g l).
Proof.
  induction 1 as [|x l Hx _ IH]; simpl; [constructor|].
  destruct (f x) eqn:Ef.
  - rewrite (Hx eq_refl). apply sublist_skip, IH.
  - destruct (g x); [apply sublist_cons|]; exact IH.
Qed.

(** X28.  Raising the maximum distance never removes anybody: with
    numbers for the distances and the two maxima, the result for the
    smaller maximum is a sub-list of the result for the larger one. *)
Theorem larger_max_distance_keeps_more (ps : list Participant.t)
    (gender country day : option string) (school : option bool)
    (m m' : spec_float) :
  Forall (fun p => participant_ordered p = true) ps ->
  is_nan m = false -> is_nan m' = false ->
  float_lt m' m = false ->
  sublist (filter_participants ps gender country day school (Some m))
          (filter_participants ps gender country day school (Some m')).
Proof.
  intros Hps Hm Hm' Hle. rewrite !filter_participants_spec.
  apply filter_sublist_mono. eapply Forall_impl; [exact Hps|].
  intros p Hp. unfold retained.
  destruct (excluded_by_gender gender p); simpl; [auto|].
  destruct (excluded_by_country country p); simpl; [auto|].
  destruct (excluded_by_day (normalise_day day) p); simpl; [auto|].
  destruct (excluded_by_school school p); simpl; [auto|].
  unfold excluded_by_distance, participant_ordered in *.
  destruct (Participant.distance p) as [d|]; [|auto].
  rewrite !float_gt_lt, !negb_true_iff. apply negb_true_iff in Hp.
  intros H. apply (float_lt_negtrans m' m d); assumption.
Qed.

Lemma larger_max_distance_keeps_more_witness :
  sublist (filter_participants sample_participants None None None None (Some float_5))
          (filter_participants sample_participants None None None None (Some float_50)).
Proof.
  apply larger_max_distance_keeps_more;
    [repeat constructor | reflexivity | reflexivity | reflexivity].
Defined.

(** X29.  NaN never excludes: a participant whose distance is NaN passes
    every maximum, and a NaN maximum lets every participant pass. *)
Theorem nan_distance_never_excluded (m d : spec_float) (p : Participant.t) :
  Participant.distance p = Some d ->
  is_nan d = true \/ is_nan m = true ->
  excluded_by_distance (Some m) p = false.
Proof.
  intros Hd Hn. unfold excluded_by_distance. rewrite Hd. unfold float_gt.
  destruct Hn as [Hn|Hn].
  - destruct d; try discriminate. reflexivity.
  - destruct m; try discriminate. destruct d; reflexivity.
Qed.

Lemma nan_distance_never_excluded_witness :
  excluded_by_distance (Some S754_nan) ben = false.
Proof.
  apply (nan_distance_never_excluded S754_nan float_50 ben);
    [reflexivity | right; reflexivity].
Defined.
